(** * VSOP87 planetary models: a shallow embedding of [generate/vsop/vsop.c]

    The development follows the C file function by function.  C [int]s are
    integers of [Z]; the counters of the file stay far inside the [int] range,
    so no wrap-around is written out.  C [double]s are the carrier of the
    class [Double], with the operations the file uses; [binary64] below
    instantiates it with the kernel's IEEE 754 binary64 numbers and
    [rational] with exact rationals.  Arrays are lists updated by index;
    reading outside an array, which is undefined in C, reads a zero entry, and
    writing outside it writes nothing. *)

From Stdlib Require Import ZArith QArith Qabs Lia.
From Stdlib Require Import Floats.PrimFloat Floats.SpecFloat Floats.FloatOps.
From Stdlib Require Import Numbers.Cyclic.Int63.Uint63 Numbers.DecimalString.
From Stdlib Require Import Strings.String Strings.Ascii.
From stdpp Require Import base tactics option list list_numbers sets.

Local Open Scope Z_scope.

(** ** The header [vsop.h]

    The header is not part of the sources; its constants are taken as
    parameters.  The enumerations [vsop_version_t] and [vsop_body_t] are C
    integers, so their enumerators are integers here. *)

Class vsop_h := {
  VSOP_MIN_COORDS : Z;
  VSOP_MAX_COORDS : Z;
  VSOP_MAX_SERIES : Z;
  VSOP_INVALID_VERSION : Z;
  VSOP_ELLIPTIC_J2000 : Z;
  VSOP_HELIO_RECT_J2000 : Z;
  VSOP_HELIO_SPHER_J2000 : Z;
  VSOP_HELIO_RECT_DATE : Z;
  VSOP_HELIO_SPHER_DATE : Z;
  VSOP_BARY_RECT_J2000 : Z;
  VSOP_INVALID_BODY : Z;
  VSOP_MERCURY : Z;
  VSOP_VENUS : Z;
  VSOP_EARTH : Z;
  VSOP_EMB : Z;
  VSOP_MARS : Z;
  VSOP_JUPITER : Z;
  VSOP_SATURN : Z;
  VSOP_URANUS : Z;
  VSOP_NEPTUNE : Z;
  VSOP_SUN : Z
}.

(** ** C doubles

    [d_lit q] is the double a decimal literal of value [q] denotes, [d_of_int]
    the conversion of an [int]; [d_lt], [d_gt] and [d_le] are C's [<], [>] and
    [<=].  No law is assumed here: a theorem that needs one states it. *)

Class Double := {
  double : Type;
  d_lit : Q -> double;
  d_of_int : Z -> double;
  d_add : double -> double -> double;
  d_sub : double -> double -> double;
  d_mul : double -> double -> double;
  d_div : double -> double -> double;
  d_neg : double -> double;
  d_abs : double -> double;
  d_lt : double -> double -> bool;
  d_gt : double -> double -> bool;
  d_le : double -> double -> bool
}.

Declare Scope double_scope.
Delimit Scope double_scope with D.
Bind Scope double_scope with double.
Infix "+" := d_add : double_scope.
Infix "-" := d_sub : double_scope.
Infix "*" := d_mul : double_scope.
Infix "/" := d_div : double_scope.

(** [for (j = 0; j < n; ++j) st = body j st;] *)
Definition for_loop {S : Type} (n : Z) (body : Z -> S -> S) (st : S) : S :=
  foldl (fun st j => body j st) st (seqZ 0 n).

Section Model.
Context {hdr : vsop_h} {D : Double}.

Definition d_zero : double := d_lit 0.
Definition d_one : double := d_lit 1.
Definition DAYS_PER_MILLENNIUM : double := d_lit 365250.

(** ** Data model ([vsop_term_t], [vsop_series_t], [vsop_formula_t],
    [vsop_model_t]) *)

(** Modelled from the spec: the declaration of [vsop_term_t] in [vsop.h],
    which is not among the sources; the fields are those [vsop.c] reads and
    writes (section 3 of the specification: amplitude, phase, frequency). *)
Record vsop_term_t := {
  amplitude : double;
  phase : double;
  frequency : double
}.

(** Modelled from the spec: the declaration of [vsop_series_t] in [vsop.h]
    (section 3: a total count, an active count and the terms).  [term] is the
    pointer to the heap array of terms: [None] is [NULL]. *)
Record vsop_series_t := {
  nterms_total : Z;
  nterms_calc : Z;
  term : option (list vsop_term_t)
}.

(** Modelled from the spec: the declaration of [vsop_formula_t] in [vsop.h]
    (section 3: a total count, an active count and the series, one for each
    power of [t]); [series] is an array of [VSOP_MAX_SERIES] entries. *)
Record vsop_formula_t := {
  nseries_total : Z;
  nseries_calc : Z;
  series : list vsop_series_t
}.

(** Modelled from the spec: the declaration of [vsop_model_t] in [vsop.h]
    (section 3: version, body, the number of coordinates and the formulas);
    [formula] is an array of [VSOP_MAX_COORDS] entries. *)
Record vsop_model_t := {
  version : Z;
  body : Z;
  ncoords : Z;
  formula : list vsop_formula_t
}.

Definition zero_term : vsop_term_t :=
  {| amplitude := d_zero; phase := d_zero; frequency := d_zero |}.
Definition zero_series : vsop_series_t :=
  {| nterms_total := 0; nterms_calc := 0; term := None |}.
Definition zero_formula : vsop_formula_t :=
  {| nseries_total := 0; nseries_calc := 0;
     series := replicate (Z.to_nat VSOP_MAX_SERIES) zero_series |}.

(** [a[i]] read from an array. *)
Definition at_index {A : Type} (dflt : A) (a : list A) (i : Z) : A :=
  if i <? 0 then dflt else default dflt (a !! Z.to_nat i).

(** [a[i] = g(a[i])] *)
Definition update_at {A : Type} (i : Z) (g : A -> A) (a : list A) : list A :=
  if i <? 0 then a else alter g (Z.to_nat i) a.

Definition term_at (s : vsop_series_t) (i : Z) : vsop_term_t :=
  at_index zero_term (default [] (term s)) i.
Definition series_at (f : vsop_formula_t) (s : Z) : vsop_series_t :=
  at_index zero_series (series f) s.
Definition formula_at (m : vsop_model_t) (k : Z) : vsop_formula_t :=
  at_index zero_formula (formula m) k.

Definition set_nterms_calc (n : Z) (s : vsop_series_t) : vsop_series_t :=
  {| nterms_total := nterms_total s; nterms_calc := n; term := term s |}.
Definition set_nseries_calc (n : Z) (f : vsop_formula_t) : vsop_formula_t :=
  {| nseries_total := nseries_total f; nseries_calc := n; series := series f |}.
Definition alter_series (s : Z) (g : vsop_series_t -> vsop_series_t)
    (f : vsop_formula_t) : vsop_formula_t :=
  {| nseries_total := nseries_total f; nseries_calc := nseries_calc f;
     series := update_at s g (series f) |}.
Definition alter_formula (k : Z) (g : vsop_formula_t -> vsop_formula_t)
    (m : vsop_model_t) : vsop_model_t :=
  {| version := version m; body := body m; ncoords := ncoords m;
     formula := update_at k g (formula m) |}.

(** ** [VsopInit]: the null model

    [memset] clears the whole structure, then the two sentinels are stored. *)
Definition VsopInit : vsop_model_t :=
  {| version := VSOP_INVALID_VERSION; body := VSOP_INVALID_BODY; ncoords := 0;
     formula := replicate (Z.to_nat VSOP_MAX_COORDS) zero_formula |}.

(** ** [VsopFreeModel]: every term array is freed, then [VsopInit]. *)
Definition VsopFreeModel (m : vsop_model_t) : vsop_model_t := VsopInit.

(** ** Evaluation *)

Definition Millennia (tt : double) : double := (tt / DAYS_PER_MILLENNIUM)%D.

Section Trig.
Variables cos sin : double -> double.

(** The innermost loop of [VsopCoords]. *)
Definition coords_terms (t : double) (s : vsop_series_t) : double :=
  for_loop (nterms_calc s)
    (fun i sum =>
       let term := term_at s i in
       (sum + amplitude term * cos (phase term + t * frequency term))%D)
    d_zero.

(** The loop over the series of one formula; the state is
    [(coords[k], tpower)]. *)
Definition coords_series (t : double) (f : vsop_formula_t) : double * double :=
  for_loop (nseries_calc f)
    (fun s '(c, tpower) =>
       let sum := coords_terms t (series_at f s) in
       ((c + tpower * sum)%D, (tpower * t)%D))
    (d_zero, d_one).

Definition VsopCoords (m : vsop_model_t) (t : double) (coords : list double)
    : list double :=
  for_loop (ncoords m)
    (fun k coords => <[Z.to_nat k := fst (coords_series t (formula_at m k))]> coords)
    coords.

(** The innermost loop of [VsopDeriv]; the state is [(sin_sum, cos_sum)]. *)
Definition deriv_terms (t : double) (s : Z) (sr : vsop_series_t)
    : double * double :=
  for_loop (nterms_calc sr)
    (fun i '(sin_sum, cos_sum) =>
       let term := term_at sr i in
       let angle := (phase term + t * frequency term)%D in
       let sin_sum := (sin_sum + amplitude term * frequency term * sin angle)%D in
       if 0 <? s
       then (sin_sum, (cos_sum + amplitude term * cos angle)%D)
       else (sin_sum, cos_sum))
    (d_zero, d_zero).

(** The loop over the series of one formula; the state is
    [(deriv[k], tpower, dpower)]. *)
Definition deriv_series (t : double) (f : vsop_formula_t)
    : double * double * double :=
  for_loop (nseries_calc f)
    (fun s '(d, tpower, dpower) =>
       let '(sin_sum, cos_sum) := deriv_terms t s (series_at f s) in
       ((d + (d_of_int s * dpower * cos_sum - tpower * sin_sum))%D,
        (tpower * t)%D, tpower))
    (d_zero, d_one, d_zero).

Definition VsopDeriv (m : vsop_model_t) (t : double) (deriv : list double)
    : list double :=
  for_loop (ncoords m)
    (fun k deriv =>
       <[Z.to_nat k := fst (fst (deriv_series t (formula_at m k)))]> deriv)
    deriv.

(** A [double[3]] argument. *)
Definition vec3 : Type := double * double * double.

Definition SphereToRect (lon lat radius : double) : vec3 :=
  let r_coslat := (radius * cos lat)%D in
  ((r_coslat * cos lon)%D, (r_coslat * sin lon)%D, (radius * sin lat)%D).

Definition VsopRotate (ecliptic : vec3) : vec3 :=
  let '(e0, e1, e2) := ecliptic in
  ((e0 + d_lit 0.000000440360 * e1 - d_lit 0.000000190919 * e2)%D,
   (d_neg (d_lit 0.000000479966) * e0 + d_lit 0.917482137087 * e1
      - d_lit 0.397776982902 * e2)%D,
   (d_lit 0.397776982902 * e1 + d_lit 0.917482137087 * e2)%D).

(** [VsopCalcPos]: the result is the return code and the array [pos]. *)
Definition VsopCalcPos (m : vsop_model_t) (tt : double) (pos : vec3) : Z * vec3 :=
  let t := Millennia tt in
  if (ncoords m <? 3) || (VSOP_MAX_COORDS <? ncoords m) then (1, pos)
  else
    let coords :=
      VsopCoords m t (replicate (Z.to_nat VSOP_MAX_COORDS) d_zero) in
    let c := at_index d_zero coords in
    if (version m =? VSOP_HELIO_RECT_J2000) || (version m =? VSOP_HELIO_RECT_DATE)
    then (0, VsopRotate (c 0, c 1, c 2))
    else if (version m =? VSOP_HELIO_SPHER_J2000)
            || (version m =? VSOP_HELIO_SPHER_DATE)
    then (0, VsopRotate (SphereToRect (c 0) (c 1) (c 2)))
    else (1, pos).

(** [VsopCalcPosVel]: the result is the return code and the arrays [pos] and
    [vel].  The local arrays [coords] and [deriv] have three entries, all
    written before they are read. *)
Definition VsopCalcPosVel (m : vsop_model_t) (tt : double) (pos vel : vec3)
    : Z * vec3 * vec3 :=
  let t := Millennia tt in
  if negb (version m =? VSOP_HELIO_SPHER_J2000) then (1, pos, vel)
  else if negb (ncoords m =? 3) then (1, pos, vel)
  else
    let coords := VsopCoords m t (replicate 3 d_zero) in
    let c := at_index d_zero coords in
    let pos := VsopRotate (SphereToRect (c 0) (c 1) (c 2)) in
    let deriv := VsopDeriv m t (replicate 3 d_zero) in
    let d := at_index d_zero deriv in
    let coslon := cos (c 0) in
    let sinlon := sin (c 0) in
    let coslat := cos (c 1) in
    let sinlat := sin (c 1) in
    let r := c 2 in
    let dlon_dt := d 0 in
    let dlat_dt := d 1 in
    let dr_dt := d 2 in
    let vx := (dr_dt * coslat * coslon - r * sinlat * coslon * dlat_dt
               - r * coslat * sinlon * dlon_dt)%D in
    let vy := (dr_dt * coslat * sinlon - r * sinlat * sinlon * dlat_dt
               + r * coslat * coslon * dlon_dt)%D in
    let vz := (dr_dt * sinlat + r * coslat * dlat_dt)%D in
    let '(v0, v1, v2) := VsopRotate (vx, vy, vz) in
    (0, pos,
     ((v0 / DAYS_PER_MILLENNIUM)%D, (v1 / DAYS_PER_MILLENNIUM)%D,
      (v2 / DAYS_PER_MILLENNIUM)%D)).

End Trig.

(** ** Truncation *)

Definition Power (t : double) (n : Z) : double :=
  for_loop n (fun _ p => (p * t)%D) d_one.

(** The second [switch] of [ModelTypeScaling], on the body. *)
Definition body_scaling (b : Z) : Z * double :=
  if b =? VSOP_MERCURY then (0, d_lit 0.387098)
  else if b =? VSOP_VENUS then (0, d_lit 0.723332)
  else if b =? VSOP_EARTH then (0, d_lit 1.000000)
  else if b =? VSOP_EMB then (0, d_lit 1.000000)
  else if b =? VSOP_MARS then (0, d_lit 1.523679)
  else if b =? VSOP_JUPITER then (0, d_lit 5.2044)
  else if b =? VSOP_SATURN then (0, d_lit 9.5826)
  else if b =? VSOP_URANUS then (0, d_lit 19.2184)
  else if b =? VSOP_NEPTUNE then (0, d_lit 30.11)
  else (1, d_zero).

(** [ModelTypeScaling]: the result is the return code and [*scaling]. *)
Definition ModelTypeScaling (m : vsop_model_t) (k : Z) : Z * double :=
  if (version m =? VSOP_HELIO_RECT_J2000) || (version m =? VSOP_HELIO_RECT_DATE)
  then body_scaling (body m)
  else if (version m =? VSOP_HELIO_SPHER_J2000)
          || (version m =? VSOP_HELIO_SPHER_DATE)
  then (if (k =? 0) || (k =? 1) then (0, d_lit 1.0) else body_scaling (body m))
  else (1, d_zero).

Definition reset_series (s : vsop_series_t) : vsop_series_t :=
  set_nterms_calc (nterms_total s) s.

(** The first loop of [VsopTruncate], for one formula. *)
Definition reset_formula (f : vsop_formula_t) : vsop_formula_t :=
  for_loop (nseries_total f) (fun s f => alter_series s reset_series f)
    (set_nseries_calc (nseries_total f) f).

Definition reset_model (m : vsop_model_t) : vsop_model_t :=
  for_loop (ncoords m) (fun k m => alter_formula k reset_formula m) m.

(** The search for the smallest removable term; the state is
    [(s_best, incr_best)], where [s_best] is the index of the series pointed
    to and [None] is [NULL]. *)
Definition search_best (t : double) (f : vsop_formula_t) : option Z * double :=
  for_loop (nseries_calc f)
    (fun s '(s_best, incr_best) =>
       let tpower := Power t s in
       let sr := series_at f s in
       if 0 <? nterms_calc sr then
         let term := term_at sr (nterms_calc sr - 1) in
         let increment := (tpower * d_abs (amplitude term))%D in
         if bool_decide (s_best = None) || d_lt increment incr_best
         then (Some s, increment)
         else (s_best, incr_best)
       else (s_best, incr_best))
    (None, d_neg (d_lit 1.0)).

Definition dec_nterms_calc (s : vsop_series_t) : vsop_series_t :=
  set_nterms_calc (nterms_calc s - 1) s.

(** A bound on the number of terms the [for(;;)] loop can still remove from
    a formula. *)
Definition removable (f : vsop_formula_t) : nat :=
  sum_list_with (fun sr => Z.to_nat (nterms_calc sr)) (series f).

(** The [for(;;)] loop of [VsopTruncate]; the state is the formula and
    [accum].  [fuel] bounds the number of iterations; [greedy] below runs it
    with enough fuel for the loop to leave through its [break]. *)
Fixpoint greedy_loop (fuel : nat) (t scaled_threshold : double)
    (f : vsop_formula_t) (accum : double) : vsop_formula_t * double :=
  match fuel with
  | O => (f, accum)
  | S fuel =>
      match search_best t f with
      | (None, _) => (f, accum)
      | (Some s, incr_best) =>
          if d_gt (accum + incr_best)%D scaled_threshold then (f, accum)
          else greedy_loop fuel t scaled_threshold
                 (alter_series s dec_nterms_calc f) (accum + incr_best)%D
      end
  end.

Definition greedy (t scaled_threshold : double) (f : vsop_formula_t)
    : vsop_formula_t * double :=
  greedy_loop (S (removable f)) t scaled_threshold f d_zero.

(** The time [t] of [VsopTruncate]. *)
Definition truncate_time (tt1 tt2 : double) : double :=
  let t1 := d_abs (Millennia tt1) in
  let t2 := d_abs (Millennia tt2) in
  if d_gt t1 t2 then t1 else t2.

(** The second loop of [VsopTruncate], over the coordinates [ks]. *)
Fixpoint truncate_coords (ks : list Z) (t amplitudeThreshold : double)
    (m : vsop_model_t) : Z * vsop_model_t :=
  match ks with
  | [] => (0, m)
  | k :: ks =>
      let '(err, scaling) := ModelTypeScaling m k in
      if negb (err =? 0) then (1, m)
      else
        let scaled_threshold := (scaling * amplitudeThreshold)%D in
        let f := fst (greedy t scaled_threshold (formula_at m k)) in
        truncate_coords ks t amplitudeThreshold
          (alter_formula k (fun _ => f) m)
  end.

(** [VsopTruncate]: the result is the return code and the model. *)
Definition VsopTruncate (m : vsop_model_t) (tt1 tt2 amplitudeThreshold : double)
    : Z * vsop_model_t :=
  let t := truncate_time tt1 tt2 in
  let m := reset_model m in
  truncate_coords (seqZ 0 (ncoords m)) t amplitudeThreshold m.

(** ** [VsopTrim] *)

(** The [while] loop of [VsopTrim]; [fuel] is the value of [nseries_calc] on
    entry, which bounds the iterations. *)
Fixpoint trim_loop (fuel : nat) (f : vsop_formula_t) : vsop_formula_t :=
  match fuel with
  | O => f
  | S fuel =>
      if (0 <? nseries_calc f)
         && (nterms_calc (series_at f (nseries_calc f - 1)) =? 0)
      then trim_loop fuel (set_nseries_calc (nseries_calc f - 1) f)
      else f
  end.

Definition trim_formula (f : vsop_formula_t) : vsop_formula_t :=
  trim_loop (Z.to_nat (nseries_calc f)) f.

Definition VsopTrim (m : vsop_model_t) : vsop_model_t :=
  for_loop (ncoords m) (fun k m => alter_formula k trim_formula m) m.

(** ** [VsopTermCount] *)

Definition formula_term_count (f : vsop_formula_t) : Z :=
  for_loop (nseries_calc f)
    (fun s termcount => termcount + nterms_calc (series_at f s)) 0.

Definition VsopTermCount (m : vsop_model_t) : Z :=
  for_loop (ncoords m)
    (fun k termcount => termcount + formula_term_count (formula_at m k)) 0.

End Model.

Arguments vsop_term_t {D}.
Arguments vsop_series_t {D}.
Arguments vsop_formula_t {D}.
Arguments vsop_model_t {D}.

(** ** Files and the C library

    A text file is the list of the strings successive calls of [fgets]
    return, [None] when [fopen] fails.  The conversions of [sscanf] and
    [fprintf] and the outcome of [calloc] belong to the C library, not to the
    program: they are the operations of the class [Stdio].  [sscanf s fmt] is
    the list of the values [sscanf] converts from [s] under the format [fmt];
    its length is the number [sscanf] returns.  [sprintf fmt args] is the text
    [fprintf] writes.  [calloc_ok n size] tells whether the call of [calloc]
    that follows [n] earlier ones returns memory for [size] terms. *)

Inductive scan_value {D : Double} : Type :=
  | VInt (n : Z)
  | VDouble (x : double).

Class Stdio {D : Double} := {
  sscanf : string -> string -> list scan_value;
  sprintf : string -> list scan_value -> string;
  calloc_ok : nat -> Z -> bool
}.

(** The newline character, and [s[i]] as an integer, [0] at the end. *)
Definition newline : string := String (ascii_of_nat 10) EmptyString.

Definition char_code (s : string) (i : Z) : Z :=
  match String.get (Z.to_nat i) s with
  | Some c => Z.of_nat (nat_of_ascii c)
  | None => 0
  end.

(** [&s[i]] *)
Definition string_from (i : nat) (s : string) : string :=
  String.substring i (String.length s - i) s.

(** [fgets (line, n + 1, f)] on a file whose unread text is [s]: the string
    stored in [line], which ends with the first newline or holds [n]
    characters, and the text left unread. *)
Fixpoint fgets (n : nat) (s : string) : string * string :=
  match n, s with
  | S n, String c s' =>
      if Ascii.eqb c (ascii_of_nat 10) then (String c EmptyString, s')
      else let '(l, r) := fgets n s' in (String c l, r)
  | _, _ => (EmptyString, s)
  end.

(** The strings the calls of [fgets (line, 200, f)] return until the end of
    the text [s]; every call takes a character, so [fuel] at least the length
    of [s] is enough. *)
Fixpoint fgets_all (fuel : nat) (s : string) : list string :=
  match fuel, s with
  | S fuel, String _ _ => let '(l, r) := fgets 199 s in l :: fgets_all fuel r
  | _, _ => []
  end.

(** A file that holds the strings [lines], one after the other, opened for
    reading with [fgets (line, 200, f)]. *)
Definition reopen (lines : list string) : list string :=
  let text := foldr String.append EmptyString lines in
  fgets_all (String.length text) text.

(** [line_within n l]: [l] has at most [n] characters, ends with a newline
    and has no other newline. *)
Fixpoint line_within (n : nat) (l : string) : bool :=
  match n, l with
  | S n, String c l' =>
      if Ascii.eqb c (ascii_of_nat 10)
      then match l' with EmptyString => true | _ => false end
      else line_within n l'
  | _, _ => false
  end.

(** A line one call of [fgets (line, 200, f)] reads whole. *)
Definition line_ok (l : string) : bool := line_within 199 l.

(** The loop of a C function ends normally or jumps to its label [fail]. *)
Inductive outcome (S : Type) : Type :=
  | Continue (st : S)
  | GotoFail (st : S).
Arguments Continue {S} st.
Arguments GotoFail {S} st.

Section Files.
Context {hdr : vsop_h} {D : Double} {libc : Stdio}.

Definition set_version_body (v b : Z) (m : vsop_model_t) : vsop_model_t :=
  {| version := v; body := b; ncoords := ncoords m; formula := formula m |}.
Definition set_ncoords (n : Z) (m : vsop_model_t) : vsop_model_t :=
  {| version := version m; body := body m; ncoords := n; formula := formula m |}.

(** [series->term[i] = tm] *)
Definition set_term (i : Z) (tm : vsop_term_t) (sr : vsop_series_t)
    : vsop_series_t :=
  {| nterms_total := nterms_total sr; nterms_calc := nterms_calc sr;
     term := (fun a => <[Z.to_nat i := tm]> a) <$> term sr |}.

(** [calloc(n, sizeof(vsop_term_t))]: [n] cleared terms, or [NULL]. *)
Definition calloc (allocs : nat) (n : Z) : option (list vsop_term_t) :=
  if calloc_ok allocs n then Some (replicate (Z.to_nat n) zero_term) else None.

(** *** [VsopLoadModel] *)

Definition BodyTable : list (string * Z) :=
  [ ("MERCURY ", VSOP_MERCURY);
    ("VENUS   ", VSOP_VENUS);
    ("EARTH   ", VSOP_EARTH);
    ("EMB     ", VSOP_EMB);
    ("MARS    ", VSOP_MARS);
    ("JUPITER ", VSOP_JUPITER);
    ("SATURN  ", VSOP_SATURN);
    ("URANUS  ", VSOP_URANUS);
    ("NEPTUNE ", VSOP_NEPTUNE);
    ("SUN     ", VSOP_SUN) ]%string.

(** The search of [BodyTable] for the eight characters of the name. *)
Fixpoint find_body (table : list (string * Z)) (name : string) : Z :=
  match table with
  | [] => VSOP_INVALID_BODY
  | (n, b) :: table => if String.eqb name n then b else find_body table name
  end.

(** The local variables of [VsopLoadModel].  [ld_formula] and [ld_series]
    are the pointers [formula] and [series], as the index of the formula in
    the model and of the series in that formula; [None] is [NULL]. *)
Record load_state := {
  ld_model : vsop_model_t;
  ld_lnum : Z;
  ld_nterms : Z;
  ld_termcount : Z;
  ld_formula : option Z;
  ld_series : Z;
  ld_allocs : nat
}.

Definition with_model (m : vsop_model_t) (st : load_state) : load_state :=
  {| ld_model := m; ld_lnum := ld_lnum st; ld_nterms := ld_nterms st;
     ld_termcount := ld_termcount st; ld_formula := ld_formula st;
     ld_series := ld_series st; ld_allocs := ld_allocs st |}.

(** The test of a header record: the term count when the record is good. *)
Definition header_nterms (line : string) : option Z :=
  if (Z.of_nat (String.length line) <? 67)
     || negb (String.eqb (String.substring 0 16 line) " VSOP87 VERSION ")
     || (char_code line 17 <? 48) || (53 <? char_code line 17)
     || (char_code line 59 <? 48) || (57 <? char_code line 59)
  then None
  else
    match sscanf (string_from 60 line) "%d" with
    | [VInt nterms] => if nterms <? 1 then None else Some nterms
    | _ => None
    end.

Definition load_header (line : string) (st : load_state) : outcome load_state :=
  match header_nterms line with
  | None => GotoFail st
  | Some nterms =>
      let power := char_code line 59 - 48 in
      let m := ld_model st in
      let m :=
        if ld_lnum st =? 1
        then set_version_body (char_code line 17 - 48)
               (find_body BodyTable (String.substring 22 8 line)) m
        else m in
      if (ld_lnum st =? 1) && (body m =? VSOP_INVALID_BODY)
      then GotoFail (with_model m st)
      else if (power =? 0) && (ncoords m =? VSOP_MAX_COORDS)
      then GotoFail (with_model m st)
      else
        let formula :=
          if power =? 0 then Some (ncoords m) else ld_formula st in
        let m := if power =? 0 then set_ncoords (ncoords m + 1) m else m in
        match formula with
        | None => GotoFail (with_model m st)
        | Some k =>
            let f := formula_at m k in
            if nseries_total f =? VSOP_MAX_SERIES then GotoFail (with_model m st)
            else if negb (nseries_total f =? power) then GotoFail (with_model m st)
            else
              let s := nseries_total f in
              let mem := calloc (ld_allocs st) nterms in
              let sr :=
                {| nterms_total := nterms; nterms_calc := nterms; term := mem |} in
              let m :=
                alter_formula k
                  (fun f =>
                     {| nseries_total := s + 1; nseries_calc := s + 1;
                        series := <[Z.to_nat s := sr]> (series f) |})
                  m in
              let st :=
                {| ld_model := m; ld_lnum := ld_lnum st; ld_nterms := nterms;
                   ld_termcount := 0; ld_formula := Some k; ld_series := s;
                   ld_allocs := S (ld_allocs st) |} in
              if bool_decide (mem = None) then GotoFail st else Continue st
        end
  end.

(** A data record.  It is read only after a header, so [series] is not
    [NULL]. *)
Definition load_data (line : string) (st : load_state) : outcome load_state :=
  if Z.of_nat (String.length line) <? 131 then GotoFail st
  else
    match sscanf (string_from 79 line) "%lf %lf %lf", ld_formula st with
    | [VDouble A; VDouble B; VDouble C], Some k =>
        let tm := {| amplitude := A; phase := B; frequency := C |} in
        let m :=
          alter_formula k
            (alter_series (ld_series st) (set_term (ld_termcount st) tm))
            (ld_model st) in
        Continue
          {| ld_model := m; ld_lnum := ld_lnum st; ld_nterms := ld_nterms st;
             ld_termcount := ld_termcount st + 1; ld_formula := ld_formula st;
             ld_series := ld_series st; ld_allocs := ld_allocs st |}
    | _, _ => GotoFail st
    end.

(** One turn of the [while (fgets(...))] loop. *)
Definition load_line (line : string) (st : load_state) : outcome load_state :=
  let st :=
    {| ld_model := ld_model st; ld_lnum := ld_lnum st + 1;
       ld_nterms := ld_nterms st; ld_termcount := ld_termcount st;
       ld_formula := ld_formula st; ld_series := ld_series st;
       ld_allocs := ld_allocs st |} in
  if ld_termcount st =? ld_nterms st then load_header line st
  else load_data line st.

Fixpoint load_lines (lines : list string) (st : load_state)
    : outcome load_state :=
  match lines with
  | [] => Continue st
  | line :: lines =>
      match load_line line st with
      | Continue st => load_lines lines st
      | GotoFail st => GotoFail st
      end
  end.

(** The checks after the loop. *)
Definition load_checks (st : load_state) : outcome load_state :=
  let m := ld_model st in
  if version m =? VSOP_INVALID_VERSION then GotoFail st
  else
    let expected_ncoords := if version m =? VSOP_ELLIPTIC_J2000 then 6 else 3 in
    if negb (ncoords m =? expected_ncoords) then GotoFail st
    else if negb (ld_termcount st =? ld_nterms st) then GotoFail st
    else Continue st.

Definition load_run (infile : option (list string)) : outcome load_state :=
  let st :=
    {| ld_model := VsopInit; ld_lnum := 0; ld_nterms := 0; ld_termcount := 0;
       ld_formula := None; ld_series := 0; ld_allocs := 0 |} in
  match infile with
  | None => GotoFail st
  | Some lines =>
      match load_lines lines st with
      | Continue st => load_checks st
      | GotoFail st => GotoFail st
      end
  end.

(** [VsopLoadModel]: the result is the return code and the model.  At the
    label [fail] the model is freed when [error] is set. *)
Definition VsopLoadModel (infile : option (list string)) : Z * vsop_model_t :=
  match load_run infile with
  | Continue st => (0, ld_model st)
  | GotoFail st => (1, VsopFreeModel (ld_model st))
  end.

(** *** [VsopWriteTrunc] *)

Definition write_series (s : Z) (sr : vsop_series_t) : list string :=
  sprintf ("        series=%d, nterms=%d" ++ newline) [VInt s; VInt (nterms_calc sr)]
  :: for_loop (nterms_calc sr)
       (fun i out =>
          let term := term_at sr i in
          out ++ [sprintf ("        %7d %18.11lf %14.11lf %20.11lf" ++ newline)
                    [VInt i; VDouble (amplitude term); VDouble (phase term);
                     VDouble (frequency term)]])
       [].

Definition write_formula (k : Z) (f : vsop_formula_t) : list string :=
  sprintf ("    coord=%d, nseries=%d" ++ newline) [VInt k; VInt (nseries_calc f)]
  :: for_loop (nseries_calc f)
       (fun s out => out ++ write_series s (series_at f s)) [].

(** The lines [VsopWriteTrunc] prints once the file is open. *)
Definition write_model (m : vsop_model_t) : list string :=
  sprintf ("TRUNC_VSOP87 version=%d body=%d ncoords=%d" ++ newline)
    [VInt (version m); VInt (body m); VInt (ncoords m)]
  :: for_loop (ncoords m)
       (fun k out => out ++ write_formula k (formula_at m k)) [].

(** [VsopWriteTrunc]: [outfile] tells whether [fopen] opens the file; the
    result is the return code and the lines written. *)
Definition VsopWriteTrunc (m : vsop_model_t) (outfile : bool) : Z * list string :=
  if outfile then (0, write_model m) else (1, []).

(** *** [VsopReadTrunc] *)

(** The state of [VsopReadTrunc]: the lines not read yet, [lnum], the model
    and the number of calls of [calloc]. *)
Record read_state := {
  rd_lines : list string;
  rd_lnum : Z;
  rd_model : vsop_model_t;
  rd_allocs : nat
}.

(** A step of [VsopReadTrunc] ends with a value or jumps to [fail]. *)
Inductive read_result (A : Type) : Type :=
  | Done (a : A) (st : read_state)
  | Failed (st : read_state).
Arguments Done {A} a st.
Arguments Failed {A} st.

Definition reader (A : Type) : Type := read_state -> read_result A.

Definition ret {A : Type} (a : A) : reader A := fun st => Done a st.

Definition bind {A B : Type} (c : reader A) (k : A -> reader B) : reader B :=
  fun st =>
    match c st with
    | Done a st => k a st
    | Failed st => Failed st
    end.

Notation "'let!' x ':=' c 'in' k" := (bind c (fun x => k))
  (at level 10, x name, c at level 100, k at level 200).
Notation "'do!' c 'in' k" := (bind c (fun _ => k))
  (at level 10, c at level 100, k at level 200).

(** The macro [PARSELINE(x)]: [x] is the test of the line, which yields the
    values the line holds when it passes. *)
Definition PARSELINE {A : Type} (x : string -> option A) : reader A :=
  fun st =>
    match rd_lines st with
    | [] =>
        Failed {| rd_lines := []; rd_lnum := rd_lnum st + 1;
                  rd_model := rd_model st; rd_allocs := rd_allocs st |}
    | line :: lines =>
        let st :=
          {| rd_lines := lines; rd_lnum := rd_lnum st + 1;
             rd_model := rd_model st; rd_allocs := rd_allocs st |} in
        match x line with
        | Some a => Done a st
        | None => Failed st
        end
    end.

Definition update_model (g : vsop_model_t -> vsop_model_t) : reader unit :=
  fun st =>
    Done tt {| rd_lines := rd_lines st; rd_lnum := rd_lnum st;
               rd_model := g (rd_model st); rd_allocs := rd_allocs st |}.

(** [series->term = calloc(...)], with the jump to [fail] on [NULL]. *)
Definition read_calloc (k s n : Z) : reader unit :=
  fun st =>
    let mem := calloc (rd_allocs st) n in
    let st :=
      {| rd_lines := rd_lines st; rd_lnum := rd_lnum st;
         rd_model :=
           alter_formula k
             (alter_series s
                (fun sr => {| nterms_total := nterms_total sr;
                              nterms_calc := nterms_calc sr; term := mem |}))
             (rd_model st);
         rd_allocs := S (rd_allocs st) |} in
    if bool_decide (mem = None) then Failed st else Done tt st.

(** [for (j = 0; j < n; ++j) body(j);] *)
Fixpoint read_each (js : list Z) (body : Z -> reader unit) : reader unit :=
  match js with
  | [] => ret tt
  | j :: js => do! body j in read_each js body
  end.

Definition read_for (n : Z) (body : Z -> reader unit) : reader unit :=
  read_each (seqZ 0 n) body.

Definition read_term (k s i : Z) : reader unit :=
  let! tm := PARSELINE (fun line =>
          match sscanf line " %d %lf %lf %lf" with
          | [VInt check_i; VDouble a; VDouble p; VDouble f] =>
              if check_i =? i
              then Some {| amplitude := a; phase := p; frequency := f |}
              else None
          | _ => None
          end) in
  update_model (alter_formula k (alter_series s (set_term i tm))).

Definition read_series (k s : Z) : reader unit :=
  let! nterms := PARSELINE (fun line =>
              match sscanf line " series=%d, nterms=%d" with
              | [VInt check_s; VInt nterms] =>
                  if check_s =? s then Some nterms else None
              | _ => None
              end) in
  do! update_model
        (alter_formula k
           (alter_series s
              (fun sr => {| nterms_total := nterms; nterms_calc := nterms;
                            term := term sr |}))) in
  do! read_calloc k s nterms in
  read_for nterms (read_term k s).

Definition read_formula (k : Z) : reader unit :=
  let! nseries := PARSELINE (fun line =>
               match sscanf line " coord=%d, nseries=%d" with
               | [VInt check_k; VInt nseries] =>
                   if (check_k =? k) && (0 <=? nseries)
                      && (nseries <? VSOP_MAX_SERIES)
                   then Some nseries else None
               | _ => None
               end) in
  do! update_model
        (alter_formula k
           (fun f => {| nseries_total := nseries; nseries_calc := nseries;
                        series := series f |})) in
  read_for nseries (read_series k).

Definition read_body : reader unit :=
  let! h := PARSELINE (fun line =>
         match sscanf line "TRUNC_VSOP87 version=%d body=%d ncoords=%d" with
         | [VInt v; VInt b; VInt n] =>
             if (VSOP_MIN_COORDS <=? n) && (n <=? VSOP_MAX_COORDS)
             then Some (v, b, n) else None
         | _ => None
         end) in
  do! update_model
        (fun m => {| version := h.1.1; body := h.1.2; ncoords := h.2;
                     formula := formula m |}) in
  read_for h.2 read_formula.

(** [VsopReadTrunc]: the result is the return code and the model. *)
Definition VsopReadTrunc (infile : option (list string)) : Z * vsop_model_t :=
  let st :=
    {| rd_lines := default [] infile; rd_lnum := 0; rd_model := VsopInit;
       rd_allocs := 0 |} in
  let r :=
    match infile with
    | None => Failed st
    | Some _ => read_body st
    end in
  match r with
  | Done _ st => (0, rd_model st)
  | Failed st => (1, VsopFreeModel (rd_model st))
  end.

(** [read_back reread m]: every line [VsopWriteTrunc] prints for [m] fits
    the buffer of [fgets], [sscanf] reads it back, the integers as they are
    and every coefficient [x] as [reread x], and [calloc] returns memory for
    the terms of every active series. *)
Definition read_back (reread : double -> double) (m : vsop_model_t) : Prop :=
  let header :=
    sprintf ("TRUNC_VSOP87 version=%d body=%d ncoords=%d" ++ newline)
      [VInt (version m); VInt (body m); VInt (ncoords m)] in
  line_ok header = true
  /\ sscanf header "TRUNC_VSOP87 version=%d body=%d ncoords=%d"
     = [VInt (version m); VInt (body m); VInt (ncoords m)]
  /\ forall k, 0 <= k < ncoords m ->
       let f := formula_at m k in
       let coord :=
         sprintf ("    coord=%d, nseries=%d" ++ newline)
           [VInt k; VInt (nseries_calc f)] in
       line_ok coord = true
       /\ sscanf coord " coord=%d, nseries=%d" = [VInt k; VInt (nseries_calc f)]
       /\ forall s, 0 <= s < nseries_calc f ->
            let sr := series_at f s in
            let sline :=
              sprintf ("        series=%d, nterms=%d" ++ newline)
                [VInt s; VInt (nterms_calc sr)] in
            line_ok sline = true
            /\ sscanf sline " series=%d, nterms=%d"
               = [VInt s; VInt (nterms_calc sr)]
            /\ (forall allocs, calloc_ok allocs (nterms_calc sr) = true)
            /\ forall i, 0 <= i < nterms_calc sr ->
                 let tm := term_at sr i in
                 let tline :=
                   sprintf
                     ("        %7d %18.11lf %14.11lf %20.11lf" ++ newline)
                     [VInt i; VDouble (amplitude tm); VDouble (phase tm);
                      VDouble (frequency tm)] in
                 line_ok tline = true
                 /\ sscanf tline " %d %lf %lf %lf"
                    = [VInt i; VDouble (reread (amplitude tm));
                       VDouble (reread (phase tm));
                       VDouble (reread (frequency tm))].

(** [consumes c ls upd]: whatever follows them, the step [c] reads the lines
    [ls] and no more, and changes the model by [upd]. *)
Definition consumes (c : reader unit) (ls : list string)
    (upd : vsop_model_t -> vsop_model_t) : Prop :=
  forall rest lnum m allocs, exists lnum' allocs',
    c {| rd_lines := ls ++ rest; rd_lnum := lnum; rd_model := m;
         rd_allocs := allocs |}
    = Done tt {| rd_lines := rest; rd_lnum := lnum'; rd_model := upd m;
                 rd_allocs := allocs' |}.

End Files.

Arguments Done {D A} a st.
Arguments Failed {D A} st.

(** ** The model a written file holds

    [reread x] stands for the double [sscanf] reads from the text [fprintf]
    printed for [x] with eleven digits after the point.  [reread_model m] is
    the model whose counts are the active counts of [m] and whose terms are
    the active terms of [m], each coefficient read back from its text. *)

Section Reread.
Context {hdr : vsop_h} {D : Double}.
Variable reread : double -> double.

Definition reread_term (tm : vsop_term_t) : vsop_term_t :=
  {| amplitude := reread (amplitude tm); phase := reread (phase tm);
     frequency := reread (frequency tm) |}.

Definition reread_series (sr : vsop_series_t) : vsop_series_t :=
  {| nterms_total := nterms_calc sr; nterms_calc := nterms_calc sr;
     term := Some ((fun i => reread_term (term_at sr i))
                     <$> seqZ 0 (nterms_calc sr)) |}.

(** The formula read from the lines of [f] into the storage of [f0]. *)
Definition stored_formula (f f0 : vsop_formula_t) : vsop_formula_t :=
  {| nseries_total := nseries_calc f; nseries_calc := nseries_calc f;
     series :=
       imap (fun s sr0 =>
               if Z.of_nat s <? nseries_calc f
               then reread_series (series_at f (Z.of_nat s)) else sr0)
         (series f0) |}.

Definition reread_formula (f : vsop_formula_t) : vsop_formula_t :=
  stored_formula f zero_formula.

Definition reread_model (m : vsop_model_t) : vsop_model_t :=
  {| version := version m; body := body m; ncoords := ncoords m;
     formula :=
       imap (fun k f0 =>
               if Z.of_nat k <? ncoords m
               then reread_formula (formula_at m (Z.of_nat k)) else f0)
         (replicate (Z.to_nat VSOP_MAX_COORDS) zero_formula) |}.

End Reread.

(** ** Two instances of [Double] and one header

    [binary64] computes with the kernel's IEEE 754 binary64 numbers, rounding
    to nearest even as C does by default.  An integer below [2^53] in
    magnitude converts exactly, and the quotient of two such integers is
    rounded once, so [b64_lit] is the double of a decimal literal with at most
    fifteen digits, which covers the literals of [vsop.c]. *)

Definition b64_of_Z (z : Z) : float :=
  if z <? 0 then PrimFloat.opp (PrimFloat.of_uint63 (Uint63.of_Z (- z)))
  else PrimFloat.of_uint63 (Uint63.of_Z z).

Definition b64_lit (q : Q) : float :=
  PrimFloat.div (b64_of_Z (Qnum q)) (b64_of_Z (Z.pos (Qden q))).

Definition binary64 : Double :=
  {| double := float;
     d_lit := b64_lit;
     d_of_int := b64_of_Z;
     d_add := PrimFloat.add;
     d_sub := PrimFloat.sub;
     d_mul := PrimFloat.mul;
     d_div := PrimFloat.div;
     d_neg := PrimFloat.opp;
     d_abs := PrimFloat.abs;
     d_lt := PrimFloat.ltb;
     d_gt := fun a b => PrimFloat.ltb b a;
     d_le := PrimFloat.leb |}.

(** [rational] computes without rounding. *)
Definition rational : Double :=
  {| double := Q;
     d_lit := fun q => q;
     d_of_int := inject_Z;
     d_add := Qplus;
     d_sub := Qminus;
     d_mul := Qmult;
     d_div := Qdiv;
     d_neg := Qopp;
     d_abs := Qabs;
     d_lt := fun a b => negb (Qle_bool b a);
     d_gt := fun a b => negb (Qle_bool a b);
     d_le := Qle_bool |}.

(** One header that fits the file: the version enumerators are the digits of
    a VSOP87 header record in the order the VSOP87 distribution numbers its
    variants, the bodies follow [BodyTable]. *)
Definition sample_header : vsop_h :=
  {| VSOP_MIN_COORDS := 3;
     VSOP_MAX_COORDS := 6;
     VSOP_MAX_SERIES := 6;
     VSOP_INVALID_VERSION := -1;
     VSOP_ELLIPTIC_J2000 := 0;
     VSOP_HELIO_RECT_J2000 := 1;
     VSOP_HELIO_SPHER_J2000 := 2;
     VSOP_HELIO_RECT_DATE := 3;
     VSOP_HELIO_SPHER_DATE := 4;
     VSOP_BARY_RECT_J2000 := 5;
     VSOP_INVALID_BODY := -1;
     VSOP_MERCURY := 0;
     VSOP_VENUS := 1;
     VSOP_EARTH := 2;
     VSOP_EMB := 3;
     VSOP_MARS := 4;
     VSOP_JUPITER := 5;
     VSOP_SATURN := 6;
     VSOP_URANUS := 7;
     VSOP_NEPTUNE := 8;
     VSOP_SUN := 9 |}.

(** ** A C library for [binary64]

    [stdio64] reads and writes text the way the C library does for the
    formats of [vsop.c]: white space in a format skips white space, any other
    character must match, [%d] reads a decimal integer and [%lf] a decimal
    number (without exponent); [%d] and [%N.Plf] print with a minimum width
    and [P] digits after the point, rounded to nearest, ties to even.  The
    number read by [%lf] is rounded once when its digits, read as an integer,
    stay below [2^53].  [calloc] returns memory for every count that is not
    negative. *)

Definition is_space (c : ascii) : bool :=
  let n := Z.of_nat (nat_of_ascii c) in
  (n =? 32) || ((9 <=? n) && (n <=? 13)).

Definition digit_value (c : ascii) : option Z :=
  let n := Z.of_nat (nat_of_ascii c) in
  if (48 <=? n) && (n <=? 57) then Some (n - 48) else None.

Fixpoint skip_spaces (s : list ascii) : list ascii :=
  match s with
  | c :: s' => if is_space c then skip_spaces s' else s
  | [] => []
  end.

(** The digits at the head of [s]: their value on top of [acc], their number
    on top of [n], and the rest of [s]. *)
Fixpoint scan_digits (s : list ascii) (acc : Z) (n : nat) : Z * nat * list ascii :=
  match s with
  | c :: s' =>
      match digit_value c with
      | Some d => scan_digits s' (10 * acc + d) (S n)
      | None => (acc, n, s)
      end
  | [] => (acc, n, [])
  end.

Definition scan_sign (s : list ascii) : bool * list ascii :=
  match s with
  | "-"%char :: s' => (true, s')
  | "+"%char :: s' => (false, s')
  | _ => (false, s)
  end.

Definition scan_int (s : list ascii) : option (Z * list ascii) :=
  let '(neg, s) := scan_sign (skip_spaces s) in
  let '(v, n, s) := scan_digits s 0 0 in
  match n with
  | O => None
  | S _ => Some (if neg then - v else v, s)
  end.

Definition scan_double (s : list ascii) : option (float * list ascii) :=
  let '(neg, s) := scan_sign (skip_spaces s) in
  let '(ip, n1, s) := scan_digits s 0 0 in
  let '(mant, n2, s) :=
    match s with
    | "."%char :: s' => scan_digits s' ip 0
    | _ => (ip, O, s)
    end in
  match (n1 + n2)%nat with
  | O => None
  | S _ =>
      let x := PrimFloat.div (b64_of_Z mant) (b64_of_Z (10 ^ Z.of_nat n2)) in
      Some (if neg then PrimFloat.opp x else x, s)
  end.

Fixpoint scanf_run (fmt s : list ascii) : list (scan_value (D := binary64)) :=
  match fmt with
  | [] => []
  | "%"%char :: "d"%char :: fmt' =>
      match scan_int s with
      | Some (v, s') => VInt v :: scanf_run fmt' s'
      | None => []
      end
  | "%"%char :: "l"%char :: "f"%char :: fmt' =>
      match scan_double s with
      | Some (x, s') => VDouble (x : @double binary64) :: scanf_run fmt' s'
      | None => []
      end
  | c :: fmt' =>
      if is_space c then scanf_run fmt' (skip_spaces s)
      else
        match s with
        | c' :: s' => if Ascii.eqb c c' then scanf_run fmt' s' else []
        | [] => []
        end
  end.

Definition print_Z (z : Z) : string :=
  if z <? 0
  then ("-" ++ NilZero.string_of_uint (N.to_uint (Z.to_N (- z))))%string
  else NilZero.string_of_uint (N.to_uint (Z.to_N z)).

Fixpoint repeat_char (c : ascii) (n : nat) : string :=
  match n with
  | O => EmptyString
  | S n => String c (repeat_char c n)
  end.

Definition pad_left (c : ascii) (width : nat) (s : string) : string :=
  (repeat_char c (width - String.length s) ++ s)%string.

Definition round_half_even (n d : Z) : Z :=
  let q := n / d in
  let r := n mod d in
  if 2 * r <? d then q
  else if d <? 2 * r then q + 1
  else if Z.even q then q else q + 1.

(** [%.Pf] *)
Definition print_fixed (prec : nat) (x : float) : string :=
  let p := 10 ^ Z.of_nat prec in
  let digits (neg : bool) (scaled : Z) : string :=
    ((if neg then "-" else "") ++ print_Z (scaled / p) ++ "."
     ++ pad_left "0" prec (print_Z (scaled mod p)))%string in
  match Prim2SF x with
  | S754_nan => "nan"%string
  | S754_infinity neg => if neg then "-inf"%string else "inf"%string
  | S754_zero neg => digits neg 0
  | S754_finite neg m e =>
      digits neg
        (if 0 <=? e then Z.pos m * 2 ^ e * p
         else round_half_even (Z.pos m * p) (2 ^ (- e)))
  end.

Fixpoint printf_run (fuel : nat) (fmt : list ascii)
    (args : list (scan_value (D := binary64))) : string :=
  match fuel with
  | O => EmptyString
  | S fuel =>
      match fmt with
      | [] => EmptyString
      | "%"%char :: fmt1 =>
          let '(width, _, fmt2) := scan_digits fmt1 0 0 in
          let '(prec, _, fmt3) :=
            match fmt2 with
            | "."%char :: fmt' => scan_digits fmt' 0 0
            | _ => (6, O, fmt2)
            end in
          match fmt3, args with
          | "d"%char :: fmt4, VInt v :: args' =>
              (pad_left " " (Z.to_nat width) (print_Z v)
               ++ printf_run fuel fmt4 args')%string
          | "l"%char :: "f"%char :: fmt4, VDouble x :: args' =>
              (pad_left " " (Z.to_nat width) (print_fixed (Z.to_nat prec) x)
               ++ printf_run fuel fmt4 args')%string
          | _, _ => EmptyString
          end
      | c :: fmt' => String c (printf_run fuel fmt' args)
      end
  end.

Definition stdio64 : Stdio (D := binary64) :=
  {| sscanf := fun s fmt =>
       scanf_run (list_ascii_of_string fmt) (list_ascii_of_string s);
     sprintf := fun fmt args =>
       printf_run (String.length fmt) (list_ascii_of_string fmt) args;
     calloc_ok := fun _ n => 0 <=? n |}.

(** *** Sample data

    A header record and a data record of the standard VSOP87 format. *)
Definition header_record (version : Z) (name : string) (power nterms : Z)
    : string :=
  (" VSOP87 VERSION B" ++ print_Z version ++ "    " ++ name
   ++ "  VARIABLE 1 (LBR)       *T**" ++ print_Z power
   ++ pad_left " " 7 (print_Z nterms)
   ++ " TERMS    HELIOCENTRIC DYNAMICAL ECLIPTIC AND EQUINOX J2000"
   ++ newline)%string.

Definition data_record (a p f : Q) : string :=
  (repeat_char " " 79 ++ pad_left " " 18 (print_fixed 11 (b64_lit a))
   ++ pad_left " " 14 (print_fixed 11 (b64_lit p))
   ++ pad_left " " 20 (print_fixed 11 (b64_lit f)) ++ newline)%string.

(** A series of [n] terms at the power [power]. *)
Definition series_records (version : Z) (name : string) (power : Z)
    (terms : list (Q * Q * Q)) : list string :=
  header_record version name power (Z.of_nat (length terms))
  :: map (fun '(a, p, f) => data_record a p f) terms.

(** A file of the spherical J2000 variant for the Earth: the longitude has
    the six series of the powers 0 to 5, latitude and radius one each. *)
Definition earth_file : list string :=
  series_records 2 "EARTH   " 0
    [(1.75347045673, 0, 0)%Q; (0.03341656453, 4.66925680415, 6283.0758499914)%Q]
  ++ series_records 2 "EARTH   " 1 [(6283.31966747491, 0, 0)%Q]
  ++ series_records 2 "EARTH   " 2 [(0.00052918870, 0, 0)%Q]
  ++ series_records 2 "EARTH   " 3
       [(0.00000289226, 5.84384198723, 6283.0758499914)%Q]
  ++ series_records 2 "EARTH   " 4 [(0.00000114084, 3.14159265359, 0)%Q]
  ++ series_records 2 "EARTH   " 5 [(0.00000000878, 3.14159265359, 0)%Q]
  ++ series_records 2 "EARTH   " 0
       [(0.00000279620, 3.19870156017, 84334.66158130829)%Q]
  ++ series_records 2 "EARTH   " 0
       [(1.00013988799, 0, 0)%Q; (0.01670699626, 3.09846350771, 6283.0758499914)%Q].

(** *** Sample models *)

Section Samples.
Context {hdr : vsop_h} {D : Double}.

Definition make_term (c : Q * Q * Q) : vsop_term_t :=
  {| amplitude := d_lit c.1.1; phase := d_lit c.1.2; frequency := d_lit c.2 |}.

(** A series with the terms [cs], the first [calc] of them active. *)
Definition make_series (calc : Z) (cs : list (Q * Q * Q)) : vsop_series_t :=
  {| nterms_total := Z.of_nat (length cs); nterms_calc := calc;
     term := Some (map make_term cs) |}.

(** A formula with the series [l], the first [calc] of them active. *)
Definition make_formula (calc : Z) (l : list vsop_series_t) : vsop_formula_t :=
  {| nseries_total := Z.of_nat (length l); nseries_calc := calc;
     series := l ++ replicate (Z.to_nat VSOP_MAX_SERIES - length l) zero_series |}.

Definition make_model (v b : Z) (l : list vsop_formula_t) : vsop_model_t :=
  {| version := v; body := b; ncoords := Z.of_nat (length l);
     formula := l ++ replicate (Z.to_nat VSOP_MAX_COORDS - length l) zero_formula |}.

(** A rectangular model of Mercury, not truncated. *)
Definition mercury_sample : vsop_model_t :=
  make_model VSOP_HELIO_RECT_J2000 VSOP_MERCURY
    [ make_formula 2
        [ make_series 3 [(1, 0, 0); (0.5, 1, 2); (0.25, 2, 3)]%Q;
          make_series 2 [(3, 0, 0); (0.125, 1, 5)]%Q ];
      make_formula 1 [ make_series 1 [(1, 0, 0)]%Q ];
      make_formula 1 [ make_series 2 [(2, 0, 0); (0.0001, 1, 1)]%Q ] ].

(** A spherical model of the Sun. *)
Definition sun_sample : vsop_model_t :=
  make_model VSOP_HELIO_SPHER_J2000 VSOP_SUN
    [ make_formula 1 [ make_series 1 [(1, 0, 0)]%Q ];
      make_formula 1 [ make_series 1 [(1, 0, 0)]%Q ];
      make_formula 1 [ make_series 1 [(1, 0, 0)]%Q ] ].

(** A truncated spherical model of the Earth.  In the longitude the series
    of the powers 0 and 2 are empty and the series of the power 1 is not; in
    the latitude the series of the power 0 is empty and the series of the
    power 1, the last active one, is not. *)
Definition gapped_sample : vsop_model_t :=
  make_model VSOP_HELIO_SPHER_J2000 VSOP_EARTH
    [ make_formula 3
        [ make_series 0 [(0.001, 0, 0)]%Q;
          make_series 1 [(5, 0, 0)]%Q;
          make_series 0 [(0.002, 0, 0)]%Q ];
      make_formula 2
        [ make_series 0 [(0.001, 0, 0)]%Q;
          make_series 1 [(5, 0, 0)]%Q ];
      make_formula 1 [ make_series 1 [(1, 0, 0)]%Q ] ].

End Samples.

(** Polynomials in place of the cosine and the sine of the C library, to run
    the evaluators on [binary64]; the theorems hold for every pair of
    functions. *)
Definition cos_poly (x : float) : float :=
  let x2 := PrimFloat.mul x x in
  PrimFloat.add (PrimFloat.sub 1 (PrimFloat.div x2 2))
    (PrimFloat.div (PrimFloat.mul x2 x2) 24).

Definition sin_poly (x : float) : float :=
  let x2 := PrimFloat.mul x x in
  PrimFloat.sub x (PrimFloat.div (PrimFloat.mul x x2) 6).

(** The samples over [binary64] and over the rationals, with the sample
    header; [earth64] is the model loaded from the sample file. *)
Definition mercury64 : @vsop_model_t binary64 :=
  @mercury_sample sample_header binary64.
Definition mercuryQ : @vsop_model_t rational :=
  @mercury_sample sample_header rational.
Definition sun64 : @vsop_model_t binary64 := @sun_sample sample_header binary64.
Definition gapped64 : @vsop_model_t binary64 :=
  @gapped_sample sample_header binary64.
Definition earth64 : @vsop_model_t binary64 :=
  snd (@VsopLoadModel sample_header binary64 stdio64 (Some earth_file)).

(** What [stdio64] reads from the text it prints for a coefficient. *)
Definition reread64 (x : float) : float :=
  match scan_double (list_ascii_of_string (print_fixed 11 x)) with
  | Some (y, _) => y
  | None => x
  end.

(** A removal [(s, i)] is term [i] of series [s]. *)
Abbreviation removal := (Z * Z)%type (only parsing).

(** ** The series of the specification *)

Section Spec.
Context {hdr : vsop_h} {D : Double}.
Variables cos sin : double -> double.

(** [sum_below n g] is the sum of [g 0], ..., [g (n - 1)], added in this
    order onto [0.0]. *)
Definition sum_below (n : Z) (g : Z -> double) : double :=
  for_loop n (fun i acc => (acc + g i)%D) d_zero.

(** The angle of term [i] of a series at time [t]. *)
Definition angle (t : double) (sr : vsop_series_t) (i : Z) : double :=
  (phase (term_at sr i) + t * frequency (term_at sr i))%D.

(** The sum over the active terms of [amplitude * cos(phase + t * frequency)]. *)
Definition cos_series (t : double) (sr : vsop_series_t) : double :=
  sum_below (nterms_calc sr)
    (fun i => (amplitude (term_at sr i) * cos (angle t sr i))%D).

(** The sum over the active terms of [amplitude * frequency * sin(angle)]. *)
Definition sin_series (t : double) (sr : vsop_series_t) : double :=
  sum_below (nterms_calc sr)
    (fun i =>
       (amplitude (term_at sr i) * frequency (term_at sr i)
        * sin (angle t sr i))%D).

(** The value of coordinate [k] at time [t] (in millennia): the sum over the
    active series [s] of [t^s] times the cosine sum of series [s]. *)
Definition coordinate_value (m : vsop_model_t) (k : Z) (t : double) : double :=
  let f := formula_at m k in
  sum_below (nseries_calc f)
    (fun s => (Power t s * cos_series t (series_at f s))%D).

(** The derivative of coordinate [k] at time [t]: series [s] contributes
    [s * t^(s-1)] times its cosine sum when [s > 0], minus [t^s] times its
    sine sum. *)
Definition coordinate_derivative (m : vsop_model_t) (k : Z) (t : double)
    : double :=
  let f := formula_at m k in
  sum_below (nseries_calc f)
    (fun s =>
       ((if 0 <? s
         then d_of_int s * Power t (s - 1) * cos_series t (series_at f s)
         else d_zero)
        - Power t s * sin_series t (series_at f s))%D).

(** *** Truncation: the terms removed *)

(** The increment [t^s * |amplitude|] of a removal. *)
Definition increment (t : double) (f : vsop_formula_t) (r : removal) : double :=
  (Power t (fst r) * d_abs (amplitude (term_at (series_at f (fst r)) (snd r))))%D.

(** The removals of the [for(;;)] loop, in the order they happen: the same
    recursion as [greedy_loop], recording the term each step removes. *)
Fixpoint greedy_removals (fuel : nat) (t scaled_threshold : double)
    (f : vsop_formula_t) (accum : double) : list removal :=
  match fuel with
  | O => []
  | S fuel =>
      match search_best t f with
      | (None, _) => []
      | (Some s, incr_best) =>
          if d_gt (accum + incr_best)%D scaled_threshold then []
          else (s, nterms_calc (series_at f s) - 1)
               :: greedy_removals fuel t scaled_threshold
                    (alter_series s dec_nterms_calc f) (accum + incr_best)%D
      end
  end.

(** *** The executions of the [for(;;)] loop

    [greedy_run t thr f accum rs f' accum'] : started with the formula [f] and
    the total [accum], the loop removes the terms [rs] and leaves through its
    [break] with the formula [f'] and the total [accum']. *)
Inductive greedy_run (t thr : double)
    : vsop_formula_t -> double -> list removal -> vsop_formula_t -> double -> Prop :=
  | run_no_candidate f accum incr :
      search_best t f = (None, incr) ->
      greedy_run t thr f accum [] f accum
  | run_over_budget f accum s incr :
      search_best t f = (Some s, incr) ->
      d_gt (accum + incr)%D thr = true ->
      greedy_run t thr f accum [] f accum
  | run_remove f accum s incr rs f' accum' :
      search_best t f = (Some s, incr) ->
      d_gt (accum + incr)%D thr = false ->
      greedy_run t thr (alter_series s dec_nterms_calc f) (accum + incr)%D
        rs f' accum' ->
      greedy_run t thr f accum ((s, nterms_calc (series_at f s) - 1) :: rs)
        f' accum'.

Definition removals (t scaled_threshold : double) (f : vsop_formula_t)
    : list removal :=
  greedy_removals (S (removable f)) t scaled_threshold f d_zero.

(** The increments of the removals [rs], added in order onto [0.0]. *)
Definition removed_sum (t : double) (f : vsop_formula_t) (rs : list removal)
    : double :=
  foldl (fun acc r => (acc + increment t f r)%D) d_zero rs.

(** The number of removals of [rs] in series [s]. *)
Definition removed_from (s : Z) (rs : list removal) : Z :=
  Z.of_nat (length (filter (fun r => fst r = s) rs)).

(** The budget of coordinate [k]: its scaling factor times the threshold. *)
Definition budget (m : vsop_model_t) (k : Z) (amplitudeThreshold : double)
    : double :=
  (snd (ModelTypeScaling m k) * amplitudeThreshold)%D.

(** The terms [VsopTruncate] removes from coordinate [k], in the order of
    their removal, and the sum of their increments. *)
Definition coordinate_removals (m : vsop_model_t)
    (tt1 tt2 amplitudeThreshold : double) (k : Z) : list removal :=
  removals (truncate_time tt1 tt2) (budget m k amplitudeThreshold)
    (formula_at (reset_model m) k).

Definition coordinate_removed_sum (m : vsop_model_t)
    (tt1 tt2 amplitudeThreshold : double) (k : Z) : double :=
  removed_sum (truncate_time tt1 tt2) (formula_at (reset_model m) k)
    (coordinate_removals m tt1 tt2 amplitudeThreshold k).

(** The bodies that have an entry in the distance table of
    [ModelTypeScaling]. *)
Definition scaled_bodies : list Z :=
  [VSOP_MERCURY; VSOP_VENUS; VSOP_EARTH; VSOP_EMB; VSOP_MARS; VSOP_JUPITER;
   VSOP_SATURN; VSOP_URANUS; VSOP_NEPTUNE].

(** The rectangular and the spherical versions. *)
Definition rectangular (m : vsop_model_t) : Prop :=
  version m = VSOP_HELIO_RECT_J2000 \/ version m = VSOP_HELIO_RECT_DATE.
Definition spherical (m : vsop_model_t) : Prop :=
  version m = VSOP_HELIO_SPHER_J2000 \/ version m = VSOP_HELIO_SPHER_DATE.

(** The scaling factors [ModelTypeScaling] can store. *)
Definition scaling_factors : list double :=
  [d_lit 1.0; d_lit 0.387098; d_lit 0.723332; d_lit 1.000000; d_lit 1.523679;
   d_lit 5.2044; d_lit 9.5826; d_lit 19.2184; d_lit 30.11].

(** Two laws of the order of doubles that the comparison of two runs of
    [VsopTruncate] rests on; IEEE doubles have both, the factors being
    positive and finite. *)
Definition ordered : Prop :=
  (forall a b x, d_le a b = true -> d_gt x b = true -> d_gt x a = true)
  /\ (forall c a b, c ∈ scaling_factors -> d_le a b = true ->
        d_le (c * a)%D (c * b)%D = true).

End Spec.

(** * Theorems *)

(** ** Loops *)

Section Loops.
Context {S : Type}.
Implicit Types (body : Z -> S -> S) (st : S).

Lemma for_loop_nonpos n body st : n <= 0 -> for_loop n body st = st.
Proof. intros Hn. unfold for_loop. by rewrite seqZ_nil. Qed.

Lemma for_loop_succ n body st :
  0 <= n -> for_loop (n + 1) body st = body n (for_loop n body st).
Proof.
  intros Hn. unfold for_loop.
  rewrite seqZ_app by lia. rewrite foldl_app.
  rewrite (seqZ_cons (0 + n) 1) by lia.
  rewrite (seqZ_nil (Z.succ (0 + n))) by lia. simpl.
  by rewrite Z.add_0_l.
Qed.

(** Induction over the iterations of a loop. *)
Lemma for_loop_ind (P : Z -> S -> Prop) body st :
  P 0 st ->
  (forall j st', 0 <= j -> P j st' -> P (j + 1) (body j st')) ->
  forall n, 0 <= n -> P n (for_loop n body st).
Proof.
  intros H0 Hstep n Hn. pattern n. apply natlike_ind; [| |done].
  - by rewrite for_loop_nonpos.
  - intros j Hj IH. rewrite <- Z.add_1_r, for_loop_succ by done. by apply Hstep.
Qed.

Lemma for_loop_ext n body body' st :
  (forall j st', 0 <= j < n -> body j st' = body' j st') ->
  for_loop n body st = for_loop n body' st.
Proof.
  intros Hext. destruct (Z.le_gt_cases n 0) as [Hn|Hn].
  { by rewrite !for_loop_nonpos. }
  revert Hext. pattern n. apply natlike_ind; [| |lia].
  - intros _. by rewrite !for_loop_nonpos.
  - intros j Hj IH Hext. rewrite <- Z.add_1_r, !for_loop_succ by done.
    rewrite IH by (intros; apply Hext; lia). apply Hext. lia.
Qed.

End Loops.

(** Storing [g k] at every index [k < n] of an array. *)
Lemma for_loop_insert_lookup {A : Type} (g : Z -> A) (n : Z) (a : list A) (k : Z) :
  0 <= k < n -> (Z.to_nat k < length a)%nat ->
  for_loop n (fun k a => <[Z.to_nat k := g k]> a) a !! Z.to_nat k = Some (g k).
Proof.
  intros [Hk Hkn] Hlen.
  assert (Hgen : forall n, 0 <= n ->
    length (for_loop n (fun k a => <[Z.to_nat k := g k]> a) a) = length a /\
    (k < n -> for_loop n (fun k a => <[Z.to_nat k := g k]> a) a !! Z.to_nat k
              = Some (g k))).
  { intros n' Hn'. pattern n'. apply natlike_ind; [| |done].
    - rewrite for_loop_nonpos by done. split; [done|lia].
    - intros j Hj [IHlen IH]. rewrite <- Z.add_1_r, for_loop_succ by done.
      split; [by rewrite length_insert|].
      intros Hlt. destruct (decide (j = k)) as [->|Hne].
      + rewrite list_lookup_insert_eq; [done|]. by rewrite IHlen.
      + rewrite list_lookup_insert_ne by lia. apply IH. lia. }
  apply Hgen; lia.
Qed.

(** ** Evaluation *)

Section Evaluation.
Context {hdr : vsop_h} {D : Double}.
Variables cos sin : double -> double.

Lemma Power_nonpos t n : n <= 0 -> Power t n = d_one.
Proof. intros. unfold Power. by rewrite for_loop_nonpos. Qed.

Lemma Power_succ t n : 0 <= n -> Power t (n + 1) = (Power t n * t)%D.
Proof. intros. unfold Power. by rewrite for_loop_succ. Qed.

Lemma coords_terms_spec t sr : coords_terms cos t sr = cos_series cos t sr.
Proof. reflexivity. Qed.

(** The running power [tpower] of [VsopCoords] is [Power t s]. *)
Lemma coords_series_spec t f n :
  0 <= n ->
  for_loop n
    (fun s '(c, tpower) =>
       let sum := coords_terms cos t (series_at f s) in
       ((c + tpower * sum)%D, (tpower * t)%D))
    (d_zero, d_one)
  = (sum_below n (fun s => (Power t s * cos_series cos t (series_at f s))%D),
     Power t n).
Proof.
  intros Hn. pattern n. apply natlike_ind; [| |done].
  - unfold sum_below. rewrite !for_loop_nonpos by done.
    by rewrite Power_nonpos.
  - intros j Hj IH. unfold sum_below in *.
    rewrite <- Z.add_1_r, !for_loop_succ by done. rewrite IH.
    by rewrite Power_succ.
Qed.

Lemma coords_series_value t m k :
  fst (coords_series cos t (formula_at m k)) = coordinate_value cos m k t.
Proof.
  unfold coords_series, coordinate_value.
  destruct (Z.le_gt_cases 0 (nseries_calc (formula_at m k))) as [Hn|Hn].
  - by rewrite coords_series_spec.
  - unfold sum_below. by rewrite !for_loop_nonpos by lia.
Qed.

(** C1.  For every model [m], time [tt] in days and output array [coords],
    [VsopCoords] at [t = tt / 365250.0] stores at every index [k] from [0] to
    [ncoords - 1] the sum, over the active series [s < nseries_calc] in
    increasing order, of [t^s] times the sum, over the active terms
    [i < nterms_calc] in increasing order, of
    [amplitude_i * cos(phase_i + t * frequency_i)]; the other entries of the
    array are left as they were. *)
Theorem VsopCoords_computes_series (m : vsop_model_t) (tt : double)
    (coords : list double) :
  VsopCoords cos m (Millennia tt) coords
  = for_loop (ncoords m)
      (fun k a =>
         <[Z.to_nat k := coordinate_value cos m k (tt / d_lit 365250)%D]> a)
      coords
  /\ (forall k, 0 <= k < ncoords m -> (Z.to_nat k < length coords)%nat ->
        VsopCoords cos m (Millennia tt) coords !! Z.to_nat k
        = Some (coordinate_value cos m k (tt / d_lit 365250)%D))
  /\ (forall j, (Z.to_nat (ncoords m) <= j)%nat ->
        VsopCoords cos m (Millennia tt) coords !! j = coords !! j).
Proof.
  assert (Heq : VsopCoords cos m (Millennia tt) coords
    = for_loop (ncoords m)
        (fun k a =>
           <[Z.to_nat k := coordinate_value cos m k (tt / d_lit 365250)%D]> a)
        coords).
  { unfold VsopCoords. apply for_loop_ext. intros k a _.
    by rewrite coords_series_value. }
  split; [done|]. rewrite Heq. split.
  - intros k Hk Hlen.
    by apply (for_loop_insert_lookup
                (fun k => coordinate_value cos m k (tt / d_lit 365250)%D)).
  - intros j Hj. destruct (Z.le_gt_cases (ncoords m) 0) as [Hn|Hn].
    { by rewrite for_loop_nonpos. }
    revert Hj. generalize (ncoords m). intros n. clear Hn Heq.
    destruct (Z.le_gt_cases 0 n) as [Hn|Hn];
      [|by rewrite for_loop_nonpos by lia].
    pattern n. apply natlike_ind; [| |done].
    + by rewrite for_loop_nonpos.
    + intros i Hi IH Hj. rewrite <- Z.add_1_r, for_loop_succ by done.
      rewrite list_lookup_insert_ne by lia. apply IH. lia.
Qed.

Lemma deriv_terms_spec t s sr :
  deriv_terms cos sin t s sr
  = (sin_series sin t sr, if 0 <? s then cos_series cos t sr else d_zero).
Proof.
  unfold deriv_terms, sin_series, cos_series, sum_below, angle.
  destruct (Z.le_gt_cases 0 (nterms_calc sr)) as [Hn|Hn].
  - pattern (nterms_calc sr). apply natlike_ind; [| |done].
    + rewrite !for_loop_nonpos by done. by destruct (0 <? s).
    + intros j Hj IH. rewrite <- Z.add_1_r, !for_loop_succ by done.
      rewrite IH. by destruct (0 <? s).
  - rewrite !for_loop_nonpos by lia. by destruct (0 <? s).
Qed.

(** The running powers of [VsopDeriv]: [tpower] is [Power t s], and [dpower]
    is [0.0] before the first series and [Power t (s - 1)] afterwards. *)
Lemma deriv_series_spec t f n :
  (d_of_int 0 * d_zero * d_zero)%D = d_zero ->
  0 <= n ->
  for_loop n
    (fun s '(d, tpower, dpower) =>
       let '(sin_sum, cos_sum) := deriv_terms cos sin t s (series_at f s) in
       ((d + (d_of_int s * dpower * cos_sum - tpower * sin_sum))%D,
        (tpower * t)%D, tpower))
    (d_zero, d_one, d_zero)
  = (sum_below n
       (fun s =>
          ((if 0 <? s
            then d_of_int s * Power t (s - 1) * cos_series cos t (series_at f s)
            else d_zero)
           - Power t s * sin_series sin t (series_at f s))%D),
     Power t n,
     if 0 <? n then Power t (n - 1) else d_zero).
Proof.
  intros Hzero Hn. pattern n. apply natlike_ind; [| |done].
  - unfold sum_below. rewrite !for_loop_nonpos by done.
    by rewrite Power_nonpos.
  - intros j Hj IH. unfold sum_below in *.
    rewrite <- Z.add_1_r, !for_loop_succ by done. rewrite IH.
    rewrite deriv_terms_spec, Power_succ by done.
    replace (j + 1 - 1) with j by lia.
    replace (0 <? j + 1) with true by (symmetry; apply Z.ltb_lt; lia).
    destruct (0 <? j) eqn:Hpos; [done|].
    apply Z.ltb_ge in Hpos. assert (j = 0) as -> by lia.
    by rewrite Hzero.
Qed.

Lemma deriv_series_value t m k :
  (d_of_int 0 * d_zero * d_zero)%D = d_zero ->
  fst (fst (deriv_series cos sin t (formula_at m k)))
  = coordinate_derivative cos sin m k t.
Proof.
  intros Hzero. unfold deriv_series, coordinate_derivative.
  destruct (Z.le_gt_cases 0 (nseries_calc (formula_at m k))) as [Hn|Hn].
  - by rewrite deriv_series_spec.
  - unfold sum_below. by rewrite !for_loop_nonpos by lia.
Qed.

(** C2.  For every model [m], time [t] in millennia and output array
    [deriv], [VsopDeriv] stores at every index [k] from [0] to [ncoords - 1]
    the sum over the active series [s] of
    [s * t^(s-1) * (sum of amplitude * cos(angle))] when [s > 0], minus
    [t^s * (sum of amplitude * frequency * sin(angle))] for every [s], with
    [angle = phase + t * frequency] and the sums over the terms
    [i < nterms_calc] of the position evaluator.  For the series [s = 0] the
    code computes the first product as [0 * 0.0 * 0.0]; the theorem needs
    that this product is [0.0], as it is for IEEE doubles. *)
Theorem VsopDeriv_computes_derivative (m : vsop_model_t) (t : double)
    (deriv : list double) :
  (d_of_int 0 * d_lit 0 * d_lit 0)%D = d_lit 0 ->
  VsopDeriv cos sin m t deriv
  = for_loop (ncoords m)
      (fun k a => <[Z.to_nat k := coordinate_derivative cos sin m k t]> a)
      deriv
  /\ (forall k, 0 <= k < ncoords m -> (Z.to_nat k < length deriv)%nat ->
        VsopDeriv cos sin m t deriv !! Z.to_nat k
        = Some (coordinate_derivative cos sin m k t)).
Proof.
  intros Hzero.
  assert (Heq : VsopDeriv cos sin m t deriv
    = for_loop (ncoords m)
        (fun k a => <[Z.to_nat k := coordinate_derivative cos sin m k t]> a)
        deriv).
  { unfold VsopDeriv. apply for_loop_ext. intros k a _.
    by rewrite deriv_series_value. }
  split; [done|]. rewrite Heq. intros k Hk Hlen.
  by apply (for_loop_insert_lookup
              (fun k => coordinate_derivative cos sin m k t)).
Qed.

(** The derivative evaluator leaves out the terms at or beyond [nterms_calc]
    as the position evaluator does: both read the terms of a series through
    the sums of [sum_below (nterms_calc sr)]. *)
Lemma evaluators_read_active_terms t sr :
  coords_terms cos t sr
  = sum_below (nterms_calc sr)
      (fun i => (amplitude (term_at sr i) * cos (angle t sr i))%D)
  /\ fst (deriv_terms cos sin t 1 sr)
     = sum_below (nterms_calc sr)
         (fun i =>
            (amplitude (term_at sr i) * frequency (term_at sr i)
             * sin (angle t sr i))%D).
Proof. split; [done|]. by rewrite deriv_terms_spec. Qed.

End Evaluation.

(** ** Arrays *)

Section Arrays.
Context {A : Type}.
Implicit Types (l : list A) (g : A -> A).

Lemma at_index_in_range dflt l i :
  0 <= i -> (Z.to_nat i < length l)%nat ->
  l !! Z.to_nat i = Some (at_index dflt l i).
Proof.
  intros Hi Hlen. unfold at_index.
  destruct (i <? 0) eqn:Hneg; [apply Z.ltb_lt in Hneg; lia|].
  destruct (lookup_lt_is_Some_2 l (Z.to_nat i) Hlen) as [x Hx].
  by rewrite Hx.
Qed.

Lemma at_index_out_of_range dflt l i :
  (i < 0 \/ (length l <= Z.to_nat i)%nat) -> at_index dflt l i = dflt.
Proof.
  intros Hi. unfold at_index. destruct (i <? 0) eqn:Hneg; [done|].
  apply Z.ltb_ge in Hneg. destruct Hi as [Hi|Hi]; [lia|].
  by rewrite lookup_ge_None_2.
Qed.

Lemma update_at_nonneg g l i :
  0 <= i -> update_at i g l = alter g (Z.to_nat i) l.
Proof.
  intros Hi. unfold update_at.
  destruct (i <? 0) eqn:Hneg; [apply Z.ltb_lt in Hneg; lia|done].
Qed.

Lemma length_update_at g l i : length (update_at i g l) = length l.
Proof. unfold update_at. destruct (i <? 0); [done|apply length_alter]. Qed.

Lemma at_index_alter_eq dflt g l i :
  0 <= i -> (Z.to_nat i < length l)%nat ->
  at_index dflt (update_at i g l) i = g (at_index dflt l i).
Proof.
  intros Hi Hlen. rewrite update_at_nonneg by done. unfold at_index.
  destruct (i <? 0) eqn:Hneg; [apply Z.ltb_lt in Hneg; lia|].
  rewrite list_lookup_alter_eq.
  destruct (lookup_lt_is_Some_2 l (Z.to_nat i) Hlen) as [x Hx].
  by rewrite Hx.
Qed.

Lemma at_index_alter_ne dflt g l i j :
  0 <= i -> j <> i -> at_index dflt (update_at i g l) j = at_index dflt l j.
Proof.
  intros Hi Hne. rewrite update_at_nonneg by done. unfold at_index.
  destruct (j <? 0) eqn:Hneg; [done|].
  apply Z.ltb_ge in Hneg. rewrite list_lookup_alter_ne by lia. done.
Qed.

Lemma alter_out_of_range g l i :
  (length l <= Z.to_nat i)%nat -> update_at i g l = l.
Proof.
  intros Hlen. unfold update_at. destruct (i <? 0); [done|].
  apply list_eq. intros j.
  destruct (decide (j = Z.to_nat i)) as [->|Hne].
  - rewrite list_lookup_alter_eq. by rewrite lookup_ge_None_2.
  - by rewrite list_lookup_alter_ne.
Qed.

End Arrays.

(** ** Truncation *)

Section Truncation.
Context {hdr : vsop_h} {D : Double}.
Implicit Types (f : vsop_formula_t) (m : vsop_model_t) (t : double).

(** *** Series and formulas under an update *)

Lemma series_at_zero f s :
  (s < 0 \/ (length (series f) <= Z.to_nat s)%nat) -> series_at f s = zero_series.
Proof. apply at_index_out_of_range. Qed.

Lemma active_series_in_range f s :
  0 <= s -> nterms_calc (series_at f s) <> 0 ->
  (Z.to_nat s < length (series f))%nat.
Proof.
  intros Hs Hn. destruct (decide (Z.to_nat s < length (series f))%nat); [done|].
  rewrite series_at_zero in Hn by lia. done.
Qed.

Lemma series_at_alter_eq f s g :
  0 <= s -> (Z.to_nat s < length (series f))%nat ->
  series_at (alter_series s g f) s = g (series_at f s).
Proof. intros. by apply at_index_alter_eq. Qed.

Lemma series_at_alter_ne f s s' g :
  0 <= s -> s' <> s -> series_at (alter_series s g f) s' = series_at f s'.
Proof. intros. by apply at_index_alter_ne. Qed.

Lemma term_at_dec sr i : term_at (dec_nterms_calc sr) i = term_at sr i.
Proof. done. Qed.

Lemma term_at_alter_dec f s s' i :
  0 <= s ->
  term_at (series_at (alter_series s dec_nterms_calc f) s') i
  = term_at (series_at f s') i.
Proof.
  intros Hs. destruct (decide (s' = s)) as [->|Hne].
  - destruct (decide (Z.to_nat s < length (series f))%nat).
    + by rewrite series_at_alter_eq.
    + unfold alter_series, series_at. simpl.
      by rewrite alter_out_of_range by lia.
  - by rewrite series_at_alter_ne.
Qed.

Lemma increment_alter_dec t f s r :
  0 <= s -> increment t (alter_series s dec_nterms_calc f) r = increment t f r.
Proof. intros. unfold increment. by rewrite term_at_alter_dec. Qed.

(** *** The search for the best candidate *)

Lemma search_best_Some t f s incr :
  search_best t f = (Some s, incr) ->
  0 <= s < nseries_calc f
  /\ 0 < nterms_calc (series_at f s)
  /\ incr = increment t f (s, nterms_calc (series_at f s) - 1).
Proof.
  unfold search_best.
  destruct (Z.le_gt_cases 0 (nseries_calc f)) as [Hn|Hn];
    [|by rewrite for_loop_nonpos by lia].
  revert s incr. pattern (nseries_calc f).
  apply natlike_ind; [| |done].
  - intros s incr. by rewrite for_loop_nonpos.
  - intros n Hn' IH s incr.
    rewrite <- Z.add_1_r, for_loop_succ by done.
    destruct (for_loop n _ _) as [sb ib] eqn:Hloop.
    destruct (0 <? nterms_calc (series_at f n)) eqn:Hpos.
    + apply Z.ltb_lt in Hpos.
      destruct (bool_decide (sb = None) || d_lt _ ib).
      * intros [= <- <-]. split; [lia|]. split; [done|]. done.
      * intros [= -> ->]. destruct (IH s incr eq_refl) as (? & ? & ?).
        split; [lia|done].
    + intros [= -> ->]. destruct (IH s incr eq_refl) as (? & ? & ?).
      split; [lia|done].
Qed.

(** A candidate is a series of the array. *)
Lemma search_best_in_range t f s incr :
  search_best t f = (Some s, incr) ->
  0 <= s /\ (Z.to_nat s < length (series f))%nat
  /\ series f !! Z.to_nat s = Some (series_at f s).
Proof.
  intros Hb. destruct (search_best_Some _ _ _ _ Hb) as ([Hs _] & Hpos & _).
  assert (Z.to_nat s < length (series f))%nat
    by (apply active_series_in_range; lia).
  split; [done|]. split; [done|]. by apply at_index_in_range.
Qed.

(** *** The measure of the [for(;;)] loop *)

Lemma sum_list_with_alter_dec (l : list vsop_series_t) i sr :
  l !! i = Some sr -> 0 < nterms_calc sr ->
  S (sum_list_with (fun sr => Z.to_nat (nterms_calc sr))
       (alter dec_nterms_calc i l))
  = sum_list_with (fun sr => Z.to_nat (nterms_calc sr)) l.
Proof.
  revert i. induction l as [|x l IH]; intros [|i] Hl Hpos; simplify_eq/=.
  - lia.
  - rewrite <- (IH i) by done. lia.
Qed.

Lemma removable_dec t f s incr :
  search_best t f = (Some s, incr) ->
  S (removable (alter_series s dec_nterms_calc f)) = removable f.
Proof.
  intros Hb. destruct (search_best_in_range _ _ _ _ Hb) as (Hs & Hlen & Hl).
  destruct (search_best_Some _ _ _ _ Hb) as (_ & Hpos & _).
  unfold removable. simpl. rewrite update_at_nonneg by done.
  by erewrite sum_list_with_alter_dec.
Qed.

(** With fuel above the measure, [greedy_loop] is an execution of the loop:
    it ends at a [break], never for want of fuel. *)
Lemma greedy_loop_run t thr fuel f accum :
  (removable f < fuel)%nat ->
  greedy_run t thr f accum (greedy_removals fuel t thr f accum)
    (fst (greedy_loop fuel t thr f accum))
    (snd (greedy_loop fuel t thr f accum)).
Proof.
  revert f accum. induction fuel as [|fuel IH]; intros f accum Hfuel; [lia|].
  simpl. destruct (search_best t f) as [[s|] incr] eqn:Hb.
  - destruct (d_gt (accum + incr)%D thr) eqn:Hgt.
    + by eapply run_over_budget.
    + eapply run_remove; [done..|]. apply IH.
      pose proof (removable_dec _ _ _ _ Hb). lia.
  - by eapply run_no_candidate.
Qed.

Lemma greedy_is_run t thr f :
  greedy_run t thr f d_zero (removals t thr f)
    (fst (greedy t thr f)) (snd (greedy t thr f)).
Proof. apply greedy_loop_run. lia. Qed.

End Truncation.

Section Runs.
Context {hdr : vsop_h} {D : Double}.
Implicit Types (f : vsop_formula_t) (m : vsop_model_t) (t thr : double).
Implicit Types (rs : list removal).

Lemma removed_from_cons s r rs :
  removed_from s (r :: rs)
  = (if decide (fst r = s) then 1 else 0) + removed_from s rs.
Proof.
  unfold removed_from. rewrite filter_cons.
  destruct (decide (fst r = s)); [rewrite length_cons|]; lia.
Qed.

Lemma removed_from_nonneg s rs : 0 <= removed_from s rs.
Proof. unfold removed_from. lia. Qed.

Lemma accumulate_alter_dec t f s rs accum :
  0 <= s ->
  foldl (fun acc r => (acc + increment t (alter_series s dec_nterms_calc f) r)%D)
    accum rs
  = foldl (fun acc r => (acc + increment t f r)%D) accum rs.
Proof.
  intros Hs. revert accum. induction rs as [|r rs IH]; intros accum; [done|].
  simpl. by rewrite IH, increment_alter_dec.
Qed.

(** The total on exit is the total on entry plus the increments of the
    removed terms, in the order of their removal. *)
Lemma run_accum t thr f accum rs f' accum' :
  greedy_run t thr f accum rs f' accum' ->
  accum' = foldl (fun acc r => (acc + increment t f r)%D) accum rs.
Proof.
  induction 1 as [| |f accum s incr rs f' accum' Hb Hgt Hrun IH]; [done..|].
  destruct (search_best_Some _ _ _ _ Hb) as ([Hs _] & _ & Hincr).
  simpl. rewrite IH, accumulate_alter_dec by done. by rewrite <- Hincr.
Qed.

(** After each removal the total is within the threshold. *)
Lemma run_within t thr f accum rs f' accum' :
  greedy_run t thr f accum rs f' accum' ->
  forall n, (0 < n <= length rs)%nat ->
    d_gt (foldl (fun acc r => (acc + increment t f r)%D) accum (take n rs)) thr
    = false.
Proof.
  induction 1 as [| |f accum s incr rs f' accum' Hb Hgt Hrun IH];
    intros n Hn; simpl in Hn; [lia..|].
  destruct (search_best_Some _ _ _ _ Hb) as ([Hs _] & _ & Hincr).
  destruct n as [|n]; [lia|]. simpl. rewrite <- Hincr.
  destruct n as [|n]; [by rewrite take_0|].
  rewrite <- (accumulate_alter_dec t f s) by done. apply IH. lia.
Qed.

(** The loop changes nothing but the counts [nterms_calc]. *)
Lemma run_frame t thr f accum rs f' accum' :
  greedy_run t thr f accum rs f' accum' ->
  nseries_total f' = nseries_total f
  /\ nseries_calc f' = nseries_calc f
  /\ length (series f') = length (series f)
  /\ (forall s, nterms_total (series_at f' s) = nterms_total (series_at f s))
  /\ (forall s, term (series_at f' s) = term (series_at f s)).
Proof.
  induction 1 as [| |f accum s incr rs f' accum' Hb Hgt Hrun IH]; [done..|].
  destruct (search_best_in_range _ _ _ _ Hb) as (Hs & Hlen & _).
  destruct IH as (-> & -> & -> & IHtot & IHterm).
  split; [done|]. split; [done|].
  split; [by simpl; rewrite length_update_at|].
  split; intros s'.
  - rewrite IHtot. destruct (decide (s' = s)) as [->|Hne].
    + by rewrite series_at_alter_eq.
    + by rewrite series_at_alter_ne.
  - rewrite IHterm. destruct (decide (s' = s)) as [->|Hne].
    + by rewrite series_at_alter_eq.
    + by rewrite series_at_alter_ne.
Qed.

(** Series [s] loses as many terms as it has removals. *)
Lemma run_counts t thr f accum rs f' accum' :
  greedy_run t thr f accum rs f' accum' ->
  forall s, nterms_calc (series_at f' s)
            = nterms_calc (series_at f s) - removed_from s rs.
Proof.
  induction 1 as [| |f accum s incr rs f' accum' Hb Hgt Hrun IH]; intros s'.
  - unfold removed_from. simpl. lia.
  - unfold removed_from. simpl. lia.
  - destruct (search_best_in_range _ _ _ _ Hb) as (Hs & Hlen & _).
    rewrite IH, removed_from_cons. simpl.
    destruct (decide (s = s')) as [->|Hne].
    + rewrite series_at_alter_eq by done. simpl. lia.
    + rewrite series_at_alter_ne by done. lia.
Qed.

(** Every removal takes the last active term of an active series: the
    removals of series [s] are its terms [n - 1], [n - 2], ... in this order,
    where [n] is its count on entry. *)
Lemma run_tails t thr f accum rs f' accum' :
  greedy_run t thr f accum rs f' accum' ->
  forall j s i, rs !! j = Some (s, i) ->
    0 <= s < nseries_calc f
    /\ 0 <= i
    /\ i = nterms_calc (series_at f s) - 1 - removed_from s (take j rs).
Proof.
  induction 1 as [| |f accum s incr rs f' accum' Hb Hgt Hrun IH];
    intros j s' i Hj; [done..|].
  destruct (search_best_in_range _ _ _ _ Hb) as (Hs & Hlen & _).
  destruct (search_best_Some _ _ _ _ Hb) as (Hrange & Hpos & _).
  destruct j as [|j]; simpl in Hj.
  - injection Hj as <- <-. rewrite take_0. unfold removed_from. simpl.
    split; [done|]. lia.
  - destruct (IH _ _ _ Hj) as (Hs' & Hi & Heq). simpl in Hs'.
    split; [done|]. split; [done|].
    rewrite firstn_cons, removed_from_cons. simpl. rewrite Heq.
    destruct (decide (s = s')) as [->|Hne].
    + rewrite series_at_alter_eq by done. simpl. lia.
    + rewrite series_at_alter_ne by done. lia.
Qed.

(** *** The count of active terms *)

Lemma sum_loop_point (g g' : Z -> Z) s0 n :
  0 <= s0 -> 0 <= n ->
  (forall s, s <> s0 -> g' s = g s) -> g' s0 = g s0 - 1 ->
  for_loop n (fun s acc => acc + g' s) 0
  = for_loop n (fun s acc => acc + g s) 0 - (if s0 <? n then 1 else 0).
Proof.
  intros Hs0 Hn Hne Heq. pattern n. apply natlike_ind; [| |done].
  - rewrite !for_loop_nonpos by done.
    destruct (s0 <? 0) eqn:E; [apply Z.ltb_lt in E|]; lia.
  - intros j Hj IH. rewrite <- Z.add_1_r, !for_loop_succ by done. rewrite IH.
    destruct (s0 <? j) eqn:E1; destruct (s0 <? j + 1) eqn:E2;
      try apply Z.ltb_lt in E1; try apply Z.ltb_lt in E2;
      try apply Z.ltb_ge in E1; try apply Z.ltb_ge in E2; try lia.
    + rewrite Hne by lia. lia.
    + assert (j = s0) as -> by lia. lia.
    + rewrite Hne by lia. lia.
Qed.

Lemma term_count_dec t f s incr :
  search_best t f = (Some s, incr) ->
  formula_term_count (alter_series s dec_nterms_calc f)
  = formula_term_count f - 1.
Proof.
  intros Hb. destruct (search_best_in_range _ _ _ _ Hb) as (Hs & Hlen & _).
  destruct (search_best_Some _ _ _ _ Hb) as (Hrange & _ & _).
  unfold formula_term_count. simpl.
  rewrite (sum_loop_point (fun s => nterms_calc (series_at f s)) _ s)
    by first [lia | by intros; rewrite series_at_alter_ne
              | by rewrite series_at_alter_eq].
  replace (s <? nseries_calc f) with true; [done|].
  symmetry. apply Z.ltb_lt. lia.
Qed.

Lemma greedy_loop_count_le fuel t thr f accum :
  formula_term_count (fst (greedy_loop fuel t thr f accum))
  <= formula_term_count f.
Proof.
  revert f accum. induction fuel as [|fuel IH]; intros f accum; [done|].
  simpl. destruct (search_best t f) as [[s|] incr] eqn:Hb; [|done].
  destruct (d_gt _ thr); [done|].
  etrans; [apply IH|]. rewrite (term_count_dec _ _ _ _ Hb). lia.
Qed.

(** A threshold that is harder to exceed lets the loop run at least as far. *)
Lemma greedy_loop_mono fuel t a b f accum :
  (forall x, d_gt x b = true -> d_gt x a = true) ->
  formula_term_count (fst (greedy_loop fuel t b f accum))
  <= formula_term_count (fst (greedy_loop fuel t a f accum)).
Proof.
  intros Hab. revert f accum.
  induction fuel as [|fuel IH]; intros f accum; [done|].
  simpl. destruct (search_best t f) as [[s|] incr] eqn:Hb; [|done].
  destruct (d_gt _ b) eqn:Hgb.
  - by rewrite (Hab _ Hgb).
  - destruct (d_gt _ a) eqn:Hga; [|apply IH].
    simpl. etrans; [apply greedy_loop_count_le|].
    rewrite (term_count_dec _ _ _ _ Hb). lia.
Qed.

End Runs.

(** ** The loops that update every entry of an array *)

Lemma for_loop_alter {A : Type} (g : A -> A) (n : Z) (l : list A) :
  for_loop n (fun k l => alter g (Z.to_nat k) l) l
  = imap (fun i x => if Z.of_nat i <? n then g x else x) l.
Proof.
  destruct (Z.le_gt_cases 0 n) as [Hn|Hn].
  - pattern n. apply natlike_ind; [| |done].
    + rewrite for_loop_nonpos by done. apply list_eq. intros i.
      rewrite list_lookup_imap. replace (Z.of_nat i <? 0) with false.
      * by destruct (l !! i).
      * symmetry. apply Z.ltb_ge. lia.
    + intros j Hj IH. rewrite <- Z.add_1_r, for_loop_succ by done. rewrite IH.
      apply list_eq. intros i.
      rewrite list_lookup_alter, !list_lookup_imap.
      destruct (decide (Z.to_nat j = i)) as [<-|Hne].
      * rewrite Z2Nat.id by done.
        rewrite Z.ltb_irrefl.
        replace (j <? j + 1) with true by (symmetry; apply Z.ltb_lt; lia).
        by destruct (l !! Z.to_nat j).
      * destruct (l !! i); [simpl|done]. f_equal.
        destruct (Z.of_nat i <? j) eqn:E1; destruct (Z.of_nat i <? j + 1) eqn:E2;
          try apply Z.ltb_lt in E1; try apply Z.ltb_lt in E2;
          try apply Z.ltb_ge in E1; try apply Z.ltb_ge in E2; try done; lia.
  - rewrite for_loop_nonpos by lia. apply list_eq. intros i.
    rewrite list_lookup_imap. replace (Z.of_nat i <? n) with false.
    + by destruct (l !! i).
    + symmetry. apply Z.ltb_ge. lia.
Qed.

Section Reset.
Context {hdr : vsop_h} {D : Double}.
Implicit Types (f : vsop_formula_t) (m : vsop_model_t) (t thr : double).

Lemma for_loop_alter_series (g : vsop_series_t -> vsop_series_t) n f :
  for_loop n (fun s f => alter_series s g f) f
  = {| nseries_total := nseries_total f; nseries_calc := nseries_calc f;
       series := for_loop n (fun s l => alter g (Z.to_nat s) l) (series f) |}.
Proof.
  destruct (Z.le_gt_cases 0 n) as [Hn|Hn].
  - pattern n. apply natlike_ind; [| |done].
    + rewrite !for_loop_nonpos by done. by destruct f.
    + intros j Hj IH. rewrite <- Z.add_1_r, !for_loop_succ by done.
      rewrite IH. unfold alter_series. simpl. by rewrite update_at_nonneg.
  - rewrite !for_loop_nonpos by lia. by destruct f.
Qed.

Lemma for_loop_alter_formula (g : vsop_formula_t -> vsop_formula_t) n m :
  for_loop n (fun k m => alter_formula k g m) m
  = {| version := version m; body := body m; ncoords := ncoords m;
       formula := for_loop n (fun k l => alter g (Z.to_nat k) l) (formula m) |}.
Proof.
  destruct (Z.le_gt_cases 0 n) as [Hn|Hn].
  - pattern n. apply natlike_ind; [| |done].
    + rewrite !for_loop_nonpos by done. by destruct m.
    + intros j Hj IH. rewrite <- Z.add_1_r, !for_loop_succ by done.
      rewrite IH. unfold alter_formula. simpl. by rewrite update_at_nonneg.
  - rewrite !for_loop_nonpos by lia. by destruct m.
Qed.

(** The first loop of [VsopTruncate] in closed form. *)
Lemma reset_formula_spec f :
  reset_formula f
  = {| nseries_total := nseries_total f; nseries_calc := nseries_total f;
       series := imap (fun i sr => if Z.of_nat i <? nseries_total f
                                   then reset_series sr else sr) (series f) |}.
Proof.
  unfold reset_formula. rewrite for_loop_alter_series. simpl.
  by rewrite for_loop_alter.
Qed.

Lemma reset_model_spec m :
  reset_model m
  = {| version := version m; body := body m; ncoords := ncoords m;
       formula := imap (fun i f => if Z.of_nat i <? ncoords m
                                   then reset_formula f else f) (formula m) |}.
Proof.
  unfold reset_model. rewrite for_loop_alter_formula.
  by rewrite for_loop_alter.
Qed.

Lemma reset_formula_idemp f : reset_formula (reset_formula f) = reset_formula f.
Proof.
  rewrite !reset_formula_spec. simpl. f_equal. apply list_eq. intros i.
  rewrite !list_lookup_imap. destruct (series f !! i) as [sr|]; [simpl|done].
  by destruct (Z.of_nat i <? nseries_total f).
Qed.

Lemma reset_model_idemp m : reset_model (reset_model m) = reset_model m.
Proof.
  rewrite !reset_model_spec. simpl. f_equal. apply list_eq. intros i.
  rewrite !list_lookup_imap. destruct (formula m !! i) as [f|]; [simpl|done].
  destruct (Z.of_nat i <? ncoords m); [|done]. by rewrite reset_formula_idemp.
Qed.

(** Removing a term of a series below [nseries_total] is undone by the reset. *)
Lemma reset_formula_alter_dec f s :
  0 <= s < nseries_total f ->
  reset_formula (alter_series s dec_nterms_calc f) = reset_formula f.
Proof.
  intros Hs. rewrite !reset_formula_spec. simpl. f_equal. apply list_eq.
  intros i. rewrite update_at_nonneg by lia.
  rewrite !list_lookup_imap, list_lookup_alter.
  destruct (decide (Z.to_nat s = i)) as [<-|Hne]; [|done].
  destruct (series f !! Z.to_nat s) as [sr|]; [simpl|done].
  rewrite Z2Nat.id by lia.
  replace (s <? nseries_total f) with true by (symmetry; apply Z.ltb_lt; lia).
  done.
Qed.

Lemma greedy_loop_fields fuel t thr f accum :
  nseries_total (fst (greedy_loop fuel t thr f accum)) = nseries_total f
  /\ nseries_calc (fst (greedy_loop fuel t thr f accum)) = nseries_calc f.
Proof.
  revert f accum. induction fuel as [|fuel IH]; intros f accum; [done|].
  simpl. destruct (search_best t f) as [[s|] incr]; [|done].
  destruct (d_gt _ thr); [done|]. by destruct (IH (alter_series s dec_nterms_calc f)
    (accum + incr)%D) as [-> ->].
Qed.

Lemma reset_formula_greedy_loop fuel t thr f accum :
  nseries_calc f <= nseries_total f ->
  reset_formula (fst (greedy_loop fuel t thr f accum)) = reset_formula f.
Proof.
  revert f accum. induction fuel as [|fuel IH]; intros f accum Hle; [done|].
  simpl. destruct (search_best t f) as [[s|] incr] eqn:Hb; [|done].
  destruct (d_gt _ thr); [done|].
  destruct (search_best_Some _ _ _ _ Hb) as (Hs & _ & _).
  rewrite IH by done. apply reset_formula_alter_dec. lia.
Qed.

(** *** Formulas of a model under an update *)

Lemma formula_at_alter_eq m k g :
  0 <= k -> (Z.to_nat k < length (formula m))%nat ->
  formula_at (alter_formula k g m) k = g (formula_at m k).
Proof. intros. by apply at_index_alter_eq. Qed.

Lemma formula_at_alter_ne m k k' g :
  0 <= k -> k' <> k -> formula_at (alter_formula k g m) k' = formula_at m k'.
Proof. intros. by apply at_index_alter_ne. Qed.

Lemma formula_at_alter_out m k g :
  (length (formula m) <= Z.to_nat k)%nat -> alter_formula k g m = m.
Proof.
  intros. unfold alter_formula. rewrite alter_out_of_range by done.
  by destruct m.
Qed.

Lemma formula_at_reset m k :
  0 <= k < ncoords m ->
  formula_at (reset_model m) k
  = if decide (Z.to_nat k < length (formula m))%nat
    then reset_formula (formula_at m k) else zero_formula.
Proof.
  intros Hk. rewrite reset_model_spec. unfold formula_at at 1. simpl.
  case_decide as Hlen.
  - unfold at_index. destruct (k <? 0) eqn:Hneg; [apply Z.ltb_lt in Hneg; lia|].
    rewrite list_lookup_imap.
    rewrite (at_index_in_range zero_formula) by lia. simpl.
    rewrite Z2Nat.id by lia.
    by replace (k <? ncoords m) with true by (symmetry; apply Z.ltb_lt; lia).
  - apply at_index_out_of_range. right. rewrite length_imap. lia.
Qed.

Lemma reset_model_alter m k f' :
  0 <= k < ncoords m ->
  reset_formula f' = reset_formula (formula_at m k) ->
  reset_model (alter_formula k (fun _ => f') m) = reset_model m.
Proof.
  intros Hk Heq.
  destruct (decide (Z.to_nat k < length (formula m))%nat) as [Hlen|Hlen];
    [|by rewrite formula_at_alter_out by lia].
  rewrite !reset_model_spec. simpl. f_equal. apply list_eq. intros i.
  rewrite update_at_nonneg by lia.
  rewrite !list_lookup_imap, list_lookup_alter.
  destruct (decide (Z.to_nat k = i)) as [<-|Hne]; [|done].
  rewrite (at_index_in_range zero_formula) by lia. simpl.
  rewrite Z2Nat.id by lia.
  replace (k <? ncoords m) with true by (symmetry; apply Z.ltb_lt; lia).
  by rewrite Heq.
Qed.

(** *** The second loop of [VsopTruncate] *)

Lemma ModelTypeScaling_alter m k g k' :
  ModelTypeScaling (alter_formula k g m) k' = ModelTypeScaling m k'.
Proof. done. Qed.

Lemma truncate_coords_fields ks t thr m :
  version (snd (truncate_coords ks t thr m)) = version m
  /\ body (snd (truncate_coords ks t thr m)) = body m
  /\ ncoords (snd (truncate_coords ks t thr m)) = ncoords m.
Proof.
  revert m. induction ks as [|k ks IH]; intros m; [done|].
  simpl. destruct (ModelTypeScaling m k) as [err scaling].
  destruct (negb (err =? 0)); [done|].
  by destruct (IH (alter_formula k
    (fun _ => fst (greedy t (scaling * thr)%D (formula_at m k))) m))
    as (-> & -> & ->).
Qed.

Lemma truncate_coords_reset ks t thr m :
  (forall k, k ∈ ks -> 0 <= k < ncoords m) ->
  (forall k, 0 <= k < ncoords m ->
     nseries_calc (formula_at m k) <= nseries_total (formula_at m k)) ->
  reset_model (snd (truncate_coords ks t thr m)) = reset_model m.
Proof.
  revert m. induction ks as [|k ks IH]; intros m Hks Hle; [done|].
  simpl. destruct (ModelTypeScaling m k) as [err scaling].
  destruct (negb (err =? 0)); [done|].
  assert (Hk : 0 <= k < ncoords m) by (apply Hks; left).
  set (f' := fst (greedy t (scaling * thr)%D (formula_at m k))).
  assert (Hf' : nseries_total f' = nseries_total (formula_at m k)
                /\ nseries_calc f' = nseries_calc (formula_at m k))
    by apply greedy_loop_fields.
  rewrite IH.
  - apply reset_model_alter; [done|].
    apply reset_formula_greedy_loop. by apply Hle.
  - intros k' Hk'. simpl. apply Hks. by right.
  - intros k' Hk'. simpl in Hk'. destruct (decide (k' = k)) as [->|Hne].
    + destruct (decide (Z.to_nat k < length (formula m))%nat).
      * rewrite formula_at_alter_eq by lia. destruct Hf' as [-> ->].
        by apply Hle.
      * rewrite formula_at_alter_out by lia. by apply Hle.
    + rewrite formula_at_alter_ne by lia. by apply Hle.
Qed.

Lemma reset_model_calc_le m k :
  0 <= k < ncoords (reset_model m) ->
  nseries_calc (formula_at (reset_model m) k)
  <= nseries_total (formula_at (reset_model m) k).
Proof.
  intros Hk. assert (ncoords (reset_model m) = ncoords m) as Hn
    by (by rewrite reset_model_spec).
  rewrite formula_at_reset by lia. case_decide; [|done].
  rewrite reset_formula_spec. simpl. lia.
Qed.

(** C5.  For every model, interval and threshold, a second run of
    [VsopTruncate] with the same interval and threshold returns the same code
    and leaves the same model as the first, so every [nterms_calc] and
    [nseries_calc] is what one run produces: each run first resets all the
    counts [calc] to the counts [total]. *)
Theorem VsopTruncate_idempotent (m : vsop_model_t)
    (tt1 tt2 amplitudeThreshold : double) :
  VsopTruncate (snd (VsopTruncate m tt1 tt2 amplitudeThreshold))
    tt1 tt2 amplitudeThreshold
  = VsopTruncate m tt1 tt2 amplitudeThreshold.
Proof.
  unfold VsopTruncate at 1 3.
  assert (Hreset :
    reset_model (snd (VsopTruncate m tt1 tt2 amplitudeThreshold))
    = reset_model m).
  { unfold VsopTruncate. rewrite truncate_coords_reset.
    - apply reset_model_idemp.
    - intros k Hk. apply elem_of_seqZ in Hk. lia.
    - apply reset_model_calc_le. }
  by rewrite Hreset.
Qed.

End Reset.

Section Coordinates.
Context {hdr : vsop_h} {D : Double}.
Implicit Types (f : vsop_formula_t) (m : vsop_model_t) (t thr : double).

Lemma body_scaling_factor b c :
  body_scaling b = (0, c) -> c ∈ scaling_factors.
Proof.
  unfold body_scaling, scaling_factors.
  repeat (case_match; [intros [= <-]; set_solver|]). done.
Qed.

Lemma ModelTypeScaling_factor m k c :
  ModelTypeScaling m k = (0, c) -> c ∈ scaling_factors.
Proof.
  unfold ModelTypeScaling.
  repeat case_match; try done; try apply body_scaling_factor.
  intros [= <-]. unfold scaling_factors. set_solver.
Qed.

Lemma ModelTypeScaling_reset m k :
  ModelTypeScaling (reset_model m) k = ModelTypeScaling m k.
Proof. by rewrite reset_model_spec. Qed.

(** A coordinate outside [ks] is not touched. *)
Lemma truncate_coords_other ks t thr m k :
  (forall k', k' ∈ ks -> 0 <= k') -> k ∉ ks ->
  formula_at (snd (truncate_coords ks t thr m)) k = formula_at m k.
Proof.
  revert m. induction ks as [|k0 ks IH]; intros m Hks Hk; [done|].
  simpl. destruct (ModelTypeScaling m k0) as [err scaling].
  destruct (negb (err =? 0)); [done|].
  rewrite IH.
  - apply formula_at_alter_ne; [apply Hks; left|]. set_solver.
  - intros k' Hk'. apply Hks. by right.
  - set_solver.
Qed.

Lemma truncate_coords_length ks t thr m :
  length (formula (snd (truncate_coords ks t thr m))) = length (formula m).
Proof.
  revert m. induction ks as [|k0 ks IH]; intros m; [done|].
  simpl. destruct (ModelTypeScaling m k0) as [err scaling].
  destruct (negb (err =? 0)); [done|].
  rewrite IH. simpl. by rewrite length_update_at.
Qed.

(** When the loop ends with code [0], every coordinate of [ks] had a scaling
    factor and was replaced by the result of the [for(;;)] loop. *)
Lemma truncate_coords_result ks t thr m m' k :
  NoDup ks -> (forall k', k' ∈ ks -> 0 <= k') ->
  truncate_coords ks t thr m = (0, m') ->
  k ∈ ks -> (Z.to_nat k < length (formula m))%nat ->
  fst (ModelTypeScaling m k) = 0
  /\ formula_at m' k = fst (greedy t (budget m k thr) (formula_at m k)).
Proof.
  revert m. induction ks as [|k0 ks IH]; intros m Hnd Hks Hrun Hk Hlen.
  { by apply elem_of_nil in Hk. }
  apply NoDup_cons in Hnd as [Hk0 Hnd].
  assert (Hk0' : 0 <= k0) by (apply Hks; left).
  simpl in Hrun. unfold budget.
  destruct (ModelTypeScaling m k0) as [err scaling] eqn:Hsc.
  destruct (err =? 0) eqn:Herr; [|by inversion Hrun].
  apply Z.eqb_eq in Herr as ->. simpl in Hrun.
  apply elem_of_cons in Hk as [->|Hk].
  - rewrite Hsc. simpl. split; [done|].
    assert (m' = snd (truncate_coords ks t thr (alter_formula k0
      (fun _ => fst (greedy t (scaling * thr)%D (formula_at m k0))) m)))
      as -> by (by rewrite Hrun).
    rewrite truncate_coords_other; [|by intros; apply Hks; right|done].
    by rewrite formula_at_alter_eq.
  - assert (Hks' : forall k', k' ∈ ks -> 0 <= k')
      by (intros k' Hk'; apply Hks; by right).
    destruct (IH _ Hnd Hks' Hrun Hk) as [Hok Hf].
    { simpl. by rewrite length_update_at. }
    split; [done|]. rewrite Hf. unfold budget.
    rewrite ModelTypeScaling_alter.
    rewrite formula_at_alter_ne; [done..|]. by intros ->.
Qed.

(** Two runs of the loop from models that agree on the coordinates still to
    process: the run whose thresholds are harder to exceed ends with no more
    active terms in any coordinate. *)
Lemma truncate_coords_mono ks t a b ma mb :
  (forall c x, c ∈ scaling_factors ->
     d_gt x (c * b)%D = true -> d_gt x (c * a)%D = true) ->
  NoDup ks -> (forall k, k ∈ ks -> 0 <= k) ->
  version ma = version mb -> body ma = body mb ->
  length (formula ma) = length (formula mb) ->
  (forall k, k ∈ ks -> formula_at ma k = formula_at mb k) ->
  (forall k, formula_term_count (formula_at mb k)
             <= formula_term_count (formula_at ma k)) ->
  forall k,
    formula_term_count (formula_at (snd (truncate_coords ks t b mb)) k)
    <= formula_term_count (formula_at (snd (truncate_coords ks t a ma)) k).
Proof.
  intros Hab. revert ma mb.
  induction ks as [|k0 ks IH];
    intros ma mb Hnd Hks Hv Hb Hlen Hsame Hle k; [apply Hle|].
  apply NoDup_cons in Hnd as [Hk0 Hnd].
  assert (Hk0' : 0 <= k0) by (apply Hks; left).
  simpl.
  assert (Hsc : ModelTypeScaling mb k0 = ModelTypeScaling ma k0)
    by (unfold ModelTypeScaling; by rewrite Hv, Hb).
  rewrite Hsc. destruct (ModelTypeScaling ma k0) as [err c] eqn:Hsca.
  destruct (err =? 0) eqn:Herr; [|apply Hle].
  apply Z.eqb_eq in Herr as ->. simpl.
  rewrite <- (Hsame k0) by left.
  apply IH; try done.
  - intros k' Hk'. apply Hks. by right.
  - simpl. by rewrite !length_update_at.
  - intros k' Hk'. rewrite !formula_at_alter_ne by set_solver.
    apply Hsame. by right.
  - intros k'. destruct (decide (k' = k0)) as [->|Hne].
    + destruct (decide (Z.to_nat k0 < length (formula ma))%nat).
      * rewrite !formula_at_alter_eq by lia.
        apply greedy_loop_mono. intros x. apply Hab.
        by eapply ModelTypeScaling_factor.
      * rewrite !formula_at_alter_out by lia. apply Hle.
    + rewrite !formula_at_alter_ne by done. apply Hle.
Qed.

(** C6.  For every model and interval and any two thresholds [a <= b],
    truncating with [b] leaves in every coordinate a count of active terms
    (the sum of [nterms_calc] over the active series) that is at most the
    count truncating with [a] leaves.  The order of doubles enters through
    the two laws of [ordered]. *)
Theorem VsopTruncate_monotone (m : vsop_model_t) (tt1 tt2 a b : double) (k : Z) :
  ordered ->
  d_le a b = true ->
  formula_term_count (formula_at (snd (VsopTruncate m tt1 tt2 b)) k)
  <= formula_term_count (formula_at (snd (VsopTruncate m tt1 tt2 a)) k).
Proof.
  intros [Htrans Hmul] Hab. unfold VsopTruncate.
  apply truncate_coords_mono; try done.
  - intros c x Hc. apply Htrans. by apply Hmul.
  - apply NoDup_seqZ.
  - intros k' Hk'. apply elem_of_seqZ in Hk'. lia.
Qed.

(** C4 (as amended).  When [VsopTruncate] succeeds, the terms removed from
    coordinate [k] are the tail terms listed by [coordinate_removals]: series
    [s] loses as many terms as the list has removals in [s], each removal is
    the last active term of its series at that moment, and after every
    removal the sum of the increments [t^s * |amplitude|] removed so far,
    added in the order of removal, does not exceed the budget of the
    coordinate (its scaling factor times the threshold); so the sum of all
    removed increments does not exceed the budget when at least one term was
    removed.  [t] is the larger of [|tt1 / 365250.0|] and [|tt2 / 365250.0|]. *)
Theorem VsopTruncate_within_budget (m m' : vsop_model_t)
    (tt1 tt2 amplitudeThreshold : double) (k : Z) :
  VsopTruncate m tt1 tt2 amplitudeThreshold = (0, m') ->
  0 <= k < ncoords m ->
  (Z.to_nat k < length (formula m))%nat ->
  (forall s,
     nterms_calc (series_at (formula_at m' k) s)
     = nterms_calc (series_at (formula_at (reset_model m) k) s)
       - removed_from s (coordinate_removals m tt1 tt2 amplitudeThreshold k))
  /\ (forall j s i,
        coordinate_removals m tt1 tt2 amplitudeThreshold k !! j = Some (s, i) ->
        0 <= s < nseries_calc (formula_at (reset_model m) k)
        /\ 0 <= i
        /\ i = nterms_calc (series_at (formula_at (reset_model m) k) s) - 1
               - removed_from s
                   (take j (coordinate_removals m tt1 tt2 amplitudeThreshold k)))
  /\ (forall n,
        (0 < n <= length (coordinate_removals m tt1 tt2 amplitudeThreshold k))%nat ->
        d_gt (removed_sum (truncate_time tt1 tt2) (formula_at (reset_model m) k)
                (take n (coordinate_removals m tt1 tt2 amplitudeThreshold k)))
             (budget m k amplitudeThreshold)
        = false)
  /\ (coordinate_removals m tt1 tt2 amplitudeThreshold k <> [] ->
      d_gt (coordinate_removed_sum m tt1 tt2 amplitudeThreshold k)
           (budget m k amplitudeThreshold)
      = false).
Proof.
  intros Hrun Hk Hlen. unfold VsopTruncate in Hrun.
  assert (Hn : ncoords (reset_model m) = ncoords m)
    by (by rewrite reset_model_spec).
  assert (Hl : length (formula (reset_model m)) = length (formula m))
    by (rewrite reset_model_spec; simpl; by rewrite length_imap).
  destruct (truncate_coords_result _ _ _ _ _ k (NoDup_seqZ _ _)
              (fun k' Hk' => proj1 (proj1 (elem_of_seqZ _ _ _) Hk')) Hrun)
    as [_ Hf].
  { apply elem_of_seqZ. lia. }
  { lia. }
  unfold budget in Hf. rewrite ModelTypeScaling_reset in Hf.
  fold (budget m k amplitudeThreshold) in Hf.
  pose proof (greedy_is_run (truncate_time tt1 tt2)
                (budget m k amplitudeThreshold)
                (formula_at (reset_model m) k)) as Hgr.
  rewrite <- Hf in Hgr. fold (coordinate_removals m tt1 tt2 amplitudeThreshold k) in Hgr.
  split; [exact (run_counts _ _ _ _ _ _ _ Hgr)|].
  split; [exact (run_tails _ _ _ _ _ _ _ Hgr)|].
  assert (Hwithin := run_within _ _ _ _ _ _ _ Hgr).
  split; [exact Hwithin|].
  intros Hne. unfold coordinate_removed_sum.
  rewrite <- (firstn_all (coordinate_removals m tt1 tt2 amplitudeThreshold k))
    at 1.
  apply Hwithin.
  destruct (coordinate_removals m tt1 tt2 amplitudeThreshold k); [done|].
  simpl. lia.
Qed.

End Coordinates.

(** ** Position and velocity *)

Section PositionVelocity.
Context {hdr : vsop_h} {D : Double}.
Variables cos sin : double -> double.

(** C3.  [VsopCalcPosVel] returns [0] exactly when the version of the model
    is [VSOP_HELIO_SPHER_J2000] and [ncoords] is [3]; for every other version
    and for every other [ncoords] it returns the error code [1] and leaves
    the arrays [pos] and [vel] as they were. *)
Theorem VsopCalcPosVel_supported (m : vsop_model_t) (tt : double)
    (pos vel : vec3) :
  (fst (fst (VsopCalcPosVel cos sin m tt pos vel)) = 0
   <-> version m = VSOP_HELIO_SPHER_J2000 /\ ncoords m = 3)
  /\ (version m <> VSOP_HELIO_SPHER_J2000 \/ ncoords m <> 3 ->
      VsopCalcPosVel cos sin m tt pos vel = (1, pos, vel)).
Proof.
  unfold VsopCalcPosVel.
  destruct (version m =? VSOP_HELIO_SPHER_J2000) eqn:Hv;
    [apply Z.eqb_eq in Hv|apply Z.eqb_neq in Hv]; simpl.
  - destruct (ncoords m =? 3) eqn:Hn;
      [apply Z.eqb_eq in Hn|apply Z.eqb_neq in Hn]; simpl.
    + split; [done|]. intros [?|?]; done.
    + split; [split; [done|intros [_ ?]; done]|done].
  - split; [split; [done|intros [? _]; done]|done].
Qed.

End PositionVelocity.

(** ** Trimming *)

Section Trim.
Context {hdr : vsop_h} {D : Double}.
Implicit Types (f : vsop_formula_t) (m : vsop_model_t).

(** The [while] loop of [VsopTrim]: what it keeps, what it drops, and, with
    fuel for every active series, where it stops. *)
Lemma trim_loop_spec fuel f :
  series (trim_loop fuel f) = series f
  /\ nseries_total (trim_loop fuel f) = nseries_total f
  /\ nseries_calc (trim_loop fuel f) <= nseries_calc f
  /\ (0 <= nseries_calc f -> 0 <= nseries_calc (trim_loop fuel f))
  /\ (forall s, nseries_calc (trim_loop fuel f) <= s < nseries_calc f ->
        nterms_calc (series_at f s) = 0)
  /\ ((Z.to_nat (nseries_calc f) <= fuel)%nat ->
      nseries_calc (trim_loop fuel f) <= 0
      \/ nterms_calc (series_at f (nseries_calc (trim_loop fuel f) - 1)) <> 0).
Proof.
  revert f. induction fuel as [|fuel IH]; intros f; simpl.
  - split_and!; [done|done|lia|done|lia|lia].
  - destruct (0 <? nseries_calc f) eqn:Hpos;
      [apply Z.ltb_lt in Hpos|apply Z.ltb_ge in Hpos]; simpl.
    + destruct (nterms_calc (series_at f (nseries_calc f - 1)) =? 0) eqn:Hz;
        [apply Z.eqb_eq in Hz|apply Z.eqb_neq in Hz].
      * destruct (IH (set_nseries_calc (nseries_calc f - 1) f))
          as (Hs & Ht & Hle & Hnn & Hdrop & Hstop). simpl in *.
        split_and!; [done|done|lia|lia| |].
        -- intros s Hs'.
           destruct (decide (s = nseries_calc f - 1)) as [->|Hne]; [done|].
           apply Hdrop. lia.
        -- intros Hfuel. apply Hstop. lia.
      * split_and!; [done|done|lia|done|lia|]. intros _. by right.
    + split_and!; [done|done|lia|done|lia|]. intros _. left. lia.
Qed.

Lemma formula_at_VsopTrim m k :
  0 <= k < ncoords m -> (Z.to_nat k < length (formula m))%nat ->
  formula_at (VsopTrim m) k = trim_formula (formula_at m k).
Proof.
  intros Hk Hlen. unfold VsopTrim.
  rewrite for_loop_alter_formula, for_loop_alter. unfold formula_at at 1. simpl.
  unfold at_index. destruct (k <? 0) eqn:Hneg; [apply Z.ltb_lt in Hneg; lia|].
  rewrite list_lookup_imap.
  rewrite (at_index_in_range zero_formula) by lia. simpl.
  rewrite Z2Nat.id by lia.
  by replace (k <? ncoords m) with true by (symmetry; apply Z.ltb_lt; lia).
Qed.

(** C7 (as amended).  In a formula whose counts are not negative, [VsopTrim]
    changes nothing but [nseries_calc]; the series it drops are trailing
    series with [nterms_calc = 0]; the new [nseries_calc] is [0] or ends in a
    series with [nterms_calc > 0], so it is the largest such prefix length;
    every series at or below a non-empty active series stays active, empty or
    not; and a formula whose last active series is not empty is left
    unchanged, whatever empty series it has below. *)
Theorem VsopTrim_removes_trailing_empty (m : vsop_model_t) (k : Z) :
  0 <= k < ncoords m ->
  (Z.to_nat k < length (formula m))%nat ->
  0 <= nseries_calc (formula_at m k) ->
  (forall s, 0 <= nterms_calc (series_at (formula_at m k) s)) ->
  series (formula_at (VsopTrim m) k) = series (formula_at m k)
  /\ nseries_total (formula_at (VsopTrim m) k) = nseries_total (formula_at m k)
  /\ 0 <= nseries_calc (formula_at (VsopTrim m) k) <= nseries_calc (formula_at m k)
  /\ (forall s,
        nseries_calc (formula_at (VsopTrim m) k) <= s
          < nseries_calc (formula_at m k) ->
        nterms_calc (series_at (formula_at m k) s) = 0)
  /\ (nseries_calc (formula_at (VsopTrim m) k) = 0
      \/ 0 < nterms_calc (series_at (formula_at m k)
                            (nseries_calc (formula_at (VsopTrim m) k) - 1)))
  /\ (forall s, 0 <= s < nseries_calc (formula_at m k) ->
        0 < nterms_calc (series_at (formula_at m k) s) ->
        s < nseries_calc (formula_at (VsopTrim m) k))
  /\ (0 < nseries_calc (formula_at m k) ->
      0 < nterms_calc (series_at (formula_at m k)
                         (nseries_calc (formula_at m k) - 1)) ->
      formula_at (VsopTrim m) k = formula_at m k).
Proof.
  intros Hk Hlen Hn Hnonneg. rewrite formula_at_VsopTrim by done.
  set (f := formula_at m k) in *. unfold trim_formula.
  destruct (trim_loop_spec (Z.to_nat (nseries_calc f)) f)
    as (Hs & Ht & Hle & Hnn & Hdrop & Hstop).
  specialize (Hnn Hn). specialize (Hstop (Nat.le_refl _)).
  split; [done|]. split; [done|]. split; [lia|]. split; [done|].
  split; [|split].
  - destruct Hstop as [Hstop|Hstop]; [left; lia|right].
    pose proof (Hnonneg (nseries_calc (trim_loop (Z.to_nat (nseries_calc f)) f) - 1)).
    lia.
  - intros s Hs' Hpos.
    destruct (Z.lt_ge_cases s (nseries_calc (trim_loop (Z.to_nat (nseries_calc f)) f)))
      as [|Hge]; [done|].
    rewrite Hdrop in Hpos by lia. lia.
  - intros Hpos Hlast.
    destruct (Z.to_nat (nseries_calc f)) as [|fuel] eqn:Hfuel; [done|]. simpl.
    replace (0 <? nseries_calc f) with true by (symmetry; apply Z.ltb_lt; lia).
    replace (nterms_calc (series_at f (nseries_calc f - 1)) =? 0) with false
      by (symmetry; apply Z.eqb_neq; lia).
    done.
Qed.

End Trim.

(** ** The Sun *)

Section Sun.
Context {hdr : vsop_h} {D : Double}.
Implicit Types (m : vsop_model_t).

Lemma body_scaling_unlisted b :
  b ∉ scaled_bodies -> body_scaling b = (1, d_zero).
Proof.
  unfold scaled_bodies, body_scaling. intros Hb.
  repeat (apply not_elem_of_cons in Hb as [Hne Hb];
          apply Z.eqb_neq in Hne; rewrite Hne; clear Hne).
  done.
Qed.

Lemma ModelTypeScaling_rect m k :
  rectangular m -> ModelTypeScaling m k = body_scaling (body m).
Proof.
  intros Hv. unfold ModelTypeScaling.
  replace ((version m =? VSOP_HELIO_RECT_J2000)
           || (version m =? VSOP_HELIO_RECT_DATE)) with true; [done|].
  symmetry. apply orb_true_iff. destruct Hv as [->| ->];
    rewrite Z.eqb_refl; auto.
Qed.

Lemma ModelTypeScaling_radius m k :
  spherical m -> k <> 0 -> k <> 1 ->
  ModelTypeScaling m k = body_scaling (body m).
Proof.
  intros Hv H0 H1. unfold ModelTypeScaling.
  destruct ((version m =? VSOP_HELIO_RECT_J2000)
            || (version m =? VSOP_HELIO_RECT_DATE)); [done|].
  replace ((version m =? VSOP_HELIO_SPHER_J2000)
           || (version m =? VSOP_HELIO_SPHER_DATE)) with true.
  - apply Z.eqb_neq in H0, H1. by rewrite H0, H1.
  - symmetry. apply orb_true_iff. destruct Hv as [->| ->];
      rewrite Z.eqb_refl; auto.
Qed.

(** The loop returns [1] at the first coordinate without a scaling factor,
    or earlier. *)
Lemma truncate_coords_fails ks k ks' t thr m :
  fst (ModelTypeScaling m k) <> 0 ->
  fst (truncate_coords (ks ++ k :: ks') t thr m) = 1.
Proof.
  intros Hk. revert m Hk. induction ks as [|k0 ks IH]; intros m Hk; simpl.
  - destruct (ModelTypeScaling m k) as [err c]. simpl in Hk.
    apply Z.eqb_neq in Hk. by rewrite Hk.
  - destruct (ModelTypeScaling m k0) as [err c].
    destruct (negb (err =? 0)); [done|]. by apply IH.
Qed.

(** C10.  For a model whose body is the Sun, [ModelTypeScaling] fails at
    every coordinate that is scaled by distance (every coordinate of a
    rectangular version, every coordinate but [0] and [1] of a spherical
    version), so [VsopTruncate] returns the error code [1] as soon as the
    model has such a coordinate; the distance table has entries for the
    bodies of [scaled_bodies] only, and the Sun, which [BodyTable] maps the
    name ["SUN     "] to, is none of them. *)
Theorem VsopTruncate_fails_for_Sun (m : vsop_model_t)
    (tt1 tt2 amplitudeThreshold : double) :
  body m = VSOP_SUN ->
  VSOP_SUN ∉ scaled_bodies ->
  find_body BodyTable "SUN     " = VSOP_SUN
  /\ (forall k, rectangular m -> fst (ModelTypeScaling m k) = 1)
  /\ (forall k, spherical m -> k <> 0 -> k <> 1 ->
        fst (ModelTypeScaling m k) = 1)
  /\ (rectangular m -> 0 < ncoords m ->
      fst (VsopTruncate m tt1 tt2 amplitudeThreshold) = 1)
  /\ (spherical m -> 2 < ncoords m ->
      fst (VsopTruncate m tt1 tt2 amplitudeThreshold) = 1).
Proof.
  intros Hb Hsun. split; [done|].
  assert (Hrect : forall k, rectangular m -> fst (ModelTypeScaling m k) = 1).
  { intros k Hv. rewrite ModelTypeScaling_rect, Hb by done.
    by rewrite body_scaling_unlisted. }
  assert (Hsph : forall k, spherical m -> k <> 0 -> k <> 1 ->
                   fst (ModelTypeScaling m k) = 1).
  { intros k Hv H0 H1. rewrite ModelTypeScaling_radius, Hb by done.
    by rewrite body_scaling_unlisted. }
  split; [done|]. split; [done|].
  assert (Hn : ncoords (reset_model m) = ncoords m)
    by (by rewrite reset_model_spec).
  unfold VsopTruncate. rewrite Hn. split.
  - intros Hv Hpos. rewrite seqZ_cons by lia.
    apply (truncate_coords_fails []).
    rewrite ModelTypeScaling_reset, Hrect by done. lia.
  - intros Hv Hpos.
    replace (ncoords m) with (2 + (ncoords m - 2)) by lia.
    rewrite seqZ_app by lia. rewrite (seqZ_cons (0 + 2)) by lia.
    apply truncate_coords_fails.
    rewrite ModelTypeScaling_reset, Hsph by done. lia.
Qed.

End Sun.

(** ** Text files *)

Section TextFiles.

Lemma string_length_append (a b : string) :
  String.length (a ++ b) = (String.length a + String.length b)%nat.
Proof. induction a as [|c a IH]; simpl; [done|]. by rewrite IH. Qed.

(** One call of [fgets] reads a line that fits. *)
Lemma fgets_line n l rest :
  line_within n l = true -> fgets n (l ++ rest) = (l, rest).
Proof.
  revert l. induction n as [|n IH]; intros [|c l]; simpl; try done.
  destruct (Ascii.eqb c (ascii_of_nat 10)).
  - by destruct l.
  - intros Hl. by rewrite (IH l Hl).
Qed.

Lemma fgets_rest_length n s :
  (String.length (snd (fgets n s)) <= String.length s)%nat.
Proof.
  revert s. induction n as [|n IH]; intros [|c s]; simpl; try lia.
  destruct (Ascii.eqb c (ascii_of_nat 10)); simpl; [lia|].
  specialize (IH s). destruct (fgets n s) as [l r]. simpl in *. lia.
Qed.

Lemma fgets_rest_shorter n c s :
  (String.length (snd (fgets (S n) (String c s))) <= String.length s)%nat.
Proof.
  simpl. destruct (Ascii.eqb c (ascii_of_nat 10)); simpl; [lia|].
  pose proof (fgets_rest_length n s). destruct (fgets n s) as [l r].
  simpl in *. lia.
Qed.

Lemma fgets_all_step fuel c s :
  fgets_all (S fuel) (String c s)
  = fst (fgets 199 (String c s))
    :: fgets_all fuel (snd (fgets 199 (String c s))).
Proof.
  cbn [fgets_all]. by destruct (fgets 199 (String c s)).
Qed.

(** Fuel beyond the length of the text changes nothing. *)
Lemma fgets_all_fuel fuel fuel' s :
  (String.length s <= fuel)%nat -> (String.length s <= fuel')%nat ->
  fgets_all fuel s = fgets_all fuel' s.
Proof.
  revert fuel' s. induction fuel as [|fuel IH]; intros fuel' s H1 H2.
  - destruct s; [by destruct fuel'|]. cbn [String.length] in H1. lia.
  - destruct s as [|c s]; [by destruct fuel'|].
    cbn [String.length] in H1, H2.
    destruct fuel' as [|fuel']; [lia|].
    rewrite !fgets_all_step. f_equal.
    pose proof (fgets_rest_shorter 198 c s). apply IH; lia.
Qed.

Lemma reopen_cons l ls :
  line_ok l = true -> reopen (l :: ls) = l :: reopen ls.
Proof.
  intros Hl. unfold reopen. cbn [foldr].
  set (text := foldr String.append EmptyString ls).
  pose proof (fgets_line 199 l text Hl) as Hget.
  destruct l as [|c l]; [done|].
  cbn [append String.length] in *. rewrite fgets_all_step, Hget.
  cbn [fst snd]. f_equal.
  apply fgets_all_fuel; [|done]. rewrite string_length_append. lia.
Qed.

(** A file of lines that fit is read back line by line. *)
Lemma reopen_lines ls :
  Forall (fun l => line_ok l = true) ls -> reopen ls = ls.
Proof.
  induction 1 as [|l ls Hl _ IH]; [done|].
  by rewrite reopen_cons, IH.
Qed.

End TextFiles.

(** ** Loading and the compact format *)

Section Loading.
Context {hdr : vsop_h} {D : Double} {libc : Stdio}.
Implicit Types (m : vsop_model_t).

Lemma at_index_replicate {A : Type} (x : A) n i :
  at_index x (replicate n x) i = x.
Proof.
  unfold at_index. destruct (i <? 0); [done|].
  destruct (replicate n x !! Z.to_nat i) as [y|] eqn:Hy; [|done].
  apply lookup_replicate in Hy as [-> _]. done.
Qed.

(** The null model has no term storage. *)
Lemma VsopInit_no_terms k s : term (series_at (formula_at VsopInit k) s) = None.
Proof.
  unfold formula_at, VsopInit. simpl. rewrite at_index_replicate.
  unfold series_at, zero_formula. simpl. by rewrite at_index_replicate.
Qed.

(** C9.  Each of [VsopLoadModel] and [VsopReadTrunc] either succeeds with the
    code [0] or returns the error code [1] and the null model of [VsopInit]:
    the version and the body are the invalid sentinels, [ncoords] is [0] and
    no series has term storage.  Every jump to the label [fail] frees the
    model, whatever the run had stored in it. *)
Theorem load_failure_leaves_null_model (infile : option (list string)) :
  (forall st, load_run infile = GotoFail st ->
     VsopLoadModel infile = (1, VsopInit))
  /\ (fst (VsopLoadModel infile) = 0 \/ VsopLoadModel infile = (1, VsopInit))
  /\ (fst (VsopReadTrunc infile) = 0 \/ VsopReadTrunc infile = (1, VsopInit))
  /\ version VsopInit = VSOP_INVALID_VERSION
  /\ body VsopInit = VSOP_INVALID_BODY
  /\ ncoords VsopInit = 0
  /\ (forall k s, term (series_at (formula_at VsopInit k) s) = None).
Proof.
  split_and!; try done.
  - intros st Hrun. unfold VsopLoadModel. by rewrite Hrun.
  - unfold VsopLoadModel. destruct (load_run infile); [by left|by right].
  - unfold VsopReadTrunc. destruct infile as [lines|]; simpl; [|by right].
    destruct (read_body _); [by left|by right].
  - apply VsopInit_no_terms.
Qed.

(** *** Writing a model and reading it back *)

(** The lines of the first coordinate come first. *)
Lemma for_loop_app_head {A : Type} (g : Z -> list A) n :
  0 < n ->
  exists rest, for_loop n (fun k out => out ++ g k) [] = g 0 ++ rest.
Proof.
  intros Hn. replace n with ((n - 1) + 1) by lia.
  assert (Hj : 0 <= n - 1) by lia. revert Hj. generalize (n - 1).
  clear Hn n. intros j Hj. pattern j. apply natlike_ind; [| |done].
  - exists []. rewrite for_loop_succ, for_loop_nonpos by lia.
    by rewrite app_nil_r.
  - intros i Hi [rest IH]. exists (rest ++ g (i + 1)).
    rewrite <- Z.add_1_r, for_loop_succ by lia. rewrite IH.
    by rewrite app_assoc.
Qed.

(** The reader leaves at the line of a coordinate that declares
    [VSOP_MAX_SERIES] series. *)
Lemma read_formula_full k line lines lnum m allocs :
  sscanf line " coord=%d, nseries=%d" = [VInt k; VInt VSOP_MAX_SERIES] ->
  exists st,
    read_formula k {| rd_lines := line :: lines; rd_lnum := lnum;
                      rd_model := m; rd_allocs := allocs |}
    = Failed st.
Proof.
  intros Hscan. unfold read_formula, bind, PARSELINE. simpl. rewrite Hscan.
  rewrite Z.ltb_irrefl, andb_false_r. by eexists.
Qed.

(** C8.  The model [VsopWriteTrunc] wrote is not read back when its first
    coordinate has [VSOP_MAX_SERIES] active series, a count [VsopLoadModel]
    accepts: [VsopReadTrunc] returns the error code [1] and the null model.
    The hypotheses on the C library say that the first two lines fit the
    buffer of [fgets] and that [sscanf] reads back the integers [fprintf]
    printed in them. *)
Theorem VsopReadTrunc_rejects_full_formula (m : vsop_model_t) :
  VSOP_MIN_COORDS <= ncoords m <= VSOP_MAX_COORDS ->
  0 < ncoords m ->
  nseries_calc (formula_at m 0) = VSOP_MAX_SERIES ->
  line_ok
    (sprintf ("TRUNC_VSOP87 version=%d body=%d ncoords=%d" ++ newline)
       [VInt (version m); VInt (body m); VInt (ncoords m)])
  = true ->
  sscanf
    (sprintf ("TRUNC_VSOP87 version=%d body=%d ncoords=%d" ++ newline)
       [VInt (version m); VInt (body m); VInt (ncoords m)])
    "TRUNC_VSOP87 version=%d body=%d ncoords=%d"
  = [VInt (version m); VInt (body m); VInt (ncoords m)] ->
  line_ok
    (sprintf ("    coord=%d, nseries=%d" ++ newline)
       [VInt 0; VInt VSOP_MAX_SERIES])
  = true ->
  sscanf
    (sprintf ("    coord=%d, nseries=%d" ++ newline)
       [VInt 0; VInt VSOP_MAX_SERIES])
    " coord=%d, nseries=%d"
  = [VInt 0; VInt VSOP_MAX_SERIES] ->
  VsopWriteTrunc m true = (0, write_model m)
  /\ VsopReadTrunc (Some (reopen (write_model m))) = (1, VsopInit).
Proof.
  intros [Hmin Hmax] Hpos Hfull Hhok Hheader Hcok Hcoord. split; [done|].
  simpl in Hhok, Hheader, Hcok, Hcoord.
  unfold VsopReadTrunc, write_model. simpl.
  destruct (for_loop_app_head (fun k => write_formula k (formula_at m k))
              (ncoords m) Hpos) as [rest ->].
  unfold write_formula at 1. rewrite Hfull. simpl.
  rewrite !reopen_cons by done.
  unfold read_body, bind at 1, PARSELINE at 1. simpl. rewrite Hheader.
  replace ((VSOP_MIN_COORDS <=? ncoords m) && (ncoords m <=? VSOP_MAX_COORDS))
    with true
    by (symmetry; apply andb_true_iff; split; apply Z.leb_le; lia).
  unfold bind at 1, update_model. simpl.
  unfold read_for. rewrite seqZ_cons by lia. simpl. unfold bind at 1.
  edestruct read_formula_full as [st ->]; [exact Hcoord|]. done.
Qed.

End Loading.

(** ** Reading back what was written *)

(** The lines a loop appends are the lines of its turns, in order. *)
Lemma for_loop_concat {A : Type} (g : Z -> list A) (n : Z) :
  for_loop n (fun k out => out ++ g k) [] = concat (g <$> seqZ 0 n).
Proof.
  unfold for_loop. generalize (seqZ 0 n). intros js.
  assert (Hgen : forall init,
    foldl (fun out j => out ++ g j) init js = init ++ concat (g <$> js)).
  { induction js as [|j js IH]; intros init; simpl.
    - by rewrite app_nil_r.
    - by rewrite IH, app_assoc. }
  by rewrite Hgen.
Qed.

(** Storing [h i] at every index [i < n] of an array of [n] entries. *)
Lemma for_loop_insert_all {A : Type} (h : Z -> A) (x : A) (n : Z) :
  0 <= n ->
  for_loop n (fun i l => <[Z.to_nat i := h i]> l) (replicate (Z.to_nat n) x)
  = h <$> seqZ 0 n.
Proof.
  intros Hn.
  assert (Hgen : forall j, 0 <= j -> j <= n ->
    for_loop j (fun i l => <[Z.to_nat i := h i]> l) (replicate (Z.to_nat n) x)
    = (h <$> seqZ 0 j) ++ replicate (Z.to_nat (n - j)) x).
  { intros j Hj. pattern j. apply natlike_ind; [| |done].
    - intros _. rewrite for_loop_nonpos by done. simpl.
      by rewrite Z.sub_0_r.
    - intros i Hi IH Hle. rewrite <- Z.add_1_r, for_loop_succ by done.
      rewrite IH by lia. rewrite seqZ_app by lia. rewrite fmap_app.
      rewrite (seqZ_cons (0 + i) 1), (seqZ_nil (Z.succ (0 + i))) by lia.
      simpl. rewrite <- app_assoc. simpl.
      replace (Z.to_nat (n - i)) with (S (Z.to_nat (n - (i + 1)))) by lia.
      simpl. rewrite insert_app_r_alt; rewrite length_fmap, length_seqZ; [|lia].
      replace (Z.to_nat i - Z.to_nat i)%nat with 0%nat by lia. done. }
  rewrite Hgen by lia. rewrite Z.sub_diag. simpl. by rewrite app_nil_r.
Qed.

(** A loop of updates of the entries [k < n] of an array, each with its own
    function. *)
Lemma for_loop_update_each {A : Type} (h : Z -> A -> A) (n : Z) (l : list A) :
  for_loop n (fun k l => update_at k (h k) l) l
  = imap (fun i x => if Z.of_nat i <? n then h (Z.of_nat i) x else x) l.
Proof.
  destruct (Z.le_gt_cases 0 n) as [Hn|Hn].
  - pattern n. apply natlike_ind; [| |done].
    + rewrite for_loop_nonpos by done. apply list_eq. intros i.
      rewrite list_lookup_imap. replace (Z.of_nat i <? 0) with false.
      * by destruct (l !! i).
      * symmetry. apply Z.ltb_ge. lia.
    + intros j Hj IH. rewrite <- Z.add_1_r, for_loop_succ by done. rewrite IH.
      rewrite update_at_nonneg by done. apply list_eq. intros i.
      rewrite list_lookup_alter, !list_lookup_imap.
      destruct (decide (Z.to_nat j = i)) as [<-|Hne].
      * rewrite Z2Nat.id by done. rewrite Z.ltb_irrefl.
        replace (j <? j + 1) with true by (symmetry; apply Z.ltb_lt; lia).
        by destruct (l !! Z.to_nat j).
      * destruct (l !! i); [simpl|done]. f_equal.
        destruct (Z.of_nat i <? j) eqn:E1; destruct (Z.of_nat i <? j + 1) eqn:E2;
          try apply Z.ltb_lt in E1; try apply Z.ltb_lt in E2;
          try apply Z.ltb_ge in E1; try apply Z.ltb_ge in E2; try done; lia.
  - rewrite for_loop_nonpos by lia. apply list_eq. intros i.
    rewrite list_lookup_imap. replace (Z.of_nat i <? n) with false.
    + by destruct (l !! i).
    + symmetry. apply Z.ltb_ge. lia.
Qed.

Lemma update_at_compose {A : Type} (g1 g2 : A -> A) (i : Z) (l : list A) :
  update_at i g2 (update_at i g1 l) = update_at i (fun x => g2 (g1 x)) l.
Proof.
  unfold update_at. destruct (i <? 0); [done|].
  by rewrite list_alter_alter_eq.
Qed.

Lemma update_at_ext {A : Type} (g1 g2 : A -> A) (i : Z) (l : list A) :
  (forall x, g1 x = g2 x) -> update_at i g1 l = update_at i g2 l.
Proof.
  intros Hext. unfold update_at. destruct (i <? 0); [done|].
  apply list_alter_ext; [|done]. intros; apply Hext.
Qed.

Section ReaderSteps.
Context {hdr : vsop_h} {D : Double} {libc : Stdio}.
Implicit Types (m : vsop_model_t) (c : reader unit) (ls : list string).

Lemma consumes_ret : consumes (ret tt) [] (fun m => m).
Proof. intros rest lnum m allocs. by exists lnum, allocs. Qed.

Lemma consumes_bind c1 c2 ls1 ls2 upd1 upd2 :
  consumes c1 ls1 upd1 -> consumes c2 ls2 upd2 ->
  consumes (bind c1 (fun _ => c2)) (ls1 ++ ls2) (fun m => upd2 (upd1 m)).
Proof.
  intros H1 H2 rest lnum m allocs. unfold bind. rewrite <- app_assoc.
  destruct (H1 (ls2 ++ rest) lnum m allocs) as (lnum1 & allocs1 & ->).
  apply H2.
Qed.

Lemma consumes_ext c ls upd upd' :
  (forall m, upd m = upd' m) -> consumes c ls upd -> consumes c ls upd'.
Proof.
  intros Hext Hc rest lnum m allocs.
  destruct (Hc rest lnum m allocs) as (lnum' & allocs' & ->).
  exists lnum', allocs'. by rewrite Hext.
Qed.

Lemma consumes_update g : consumes (update_model g) [] g.
Proof. intros rest lnum m allocs. by exists lnum, allocs. Qed.

(** A line that passes the test of [PARSELINE]. *)
Lemma consumes_parse {A : Type} (x : string -> option A) (k : A -> reader unit)
    line a ls upd :
  x line = Some a -> consumes (k a) ls upd ->
  consumes (bind (PARSELINE x) k) (line :: ls) upd.
Proof.
  intros Hx Hk rest lnum m allocs. unfold bind, PARSELINE. simpl.
  rewrite Hx. apply Hk.
Qed.

Lemma consumes_calloc k s n :
  (forall allocs, calloc_ok allocs n = true) ->
  consumes (read_calloc k s n) []
    (alter_formula k
       (alter_series s
          (fun sr => {| nterms_total := nterms_total sr;
                        nterms_calc := nterms_calc sr;
                        term := Some (replicate (Z.to_nat n) zero_term) |}))).
Proof.
  intros Hok rest lnum m allocs. unfold read_calloc, calloc. simpl.
  rewrite Hok. simpl. by eexists _, _.
Qed.

(** A loop of the reader over the lines of its turns. *)
Lemma consumes_each (js : list Z) (body : Z -> reader unit)
    (g : Z -> list string) (upd : Z -> vsop_model_t -> vsop_model_t) :
  (forall j, j ∈ js -> consumes (body j) (g j) (upd j)) ->
  consumes (read_each js body) (concat (g <$> js))
    (fun m => foldl (fun m j => upd j m) m js).
Proof.
  induction js as [|j js IH]; intros Hbody; simpl.
  - apply consumes_ret.
  - apply (consumes_bind (body j) (read_each js body) (g j)
             (concat (g <$> js)) (upd j)
             (fun m => foldl (fun m j => upd j m) m js)).
    + apply Hbody. left.
    + apply IH. intros j' Hj'. apply Hbody. by right.
Qed.

Lemma consumes_for (n : Z) (body : Z -> reader unit)
    (g : Z -> list string) (upd : Z -> vsop_model_t -> vsop_model_t) :
  (forall j, 0 <= j < n -> consumes (body j) (g j) (upd j)) ->
  consumes (read_for n body)
    (for_loop n (fun j out => out ++ g j) [])
    (for_loop n upd).
Proof.
  intros Hbody. rewrite for_loop_concat. unfold read_for, for_loop.
  apply consumes_each. intros j Hj. apply Hbody.
  apply elem_of_seqZ in Hj. lia.
Qed.

End ReaderSteps.

Section RoundTrip.
Context {hdr : vsop_h} {D : Double} {libc : Stdio}.
Variable reread : double -> double.
Implicit Types (m : vsop_model_t) (f : vsop_formula_t) (sr : vsop_series_t).

(** *** Updates of one formula or one series of a model *)

Lemma alter_formula_compose k g1 g2 m :
  alter_formula k g2 (alter_formula k g1 m)
  = alter_formula k (fun f => g2 (g1 f)) m.
Proof. unfold alter_formula. simpl. by rewrite update_at_compose. Qed.

Lemma alter_formula_ext k g1 g2 m :
  (forall f, g1 f = g2 f) -> alter_formula k g1 m = alter_formula k g2 m.
Proof. intros Hext. unfold alter_formula. by rewrite (update_at_ext g1 g2). Qed.

Lemma alter_series_compose s g1 g2 f :
  alter_series s g2 (alter_series s g1 f)
  = alter_series s (fun sr => g2 (g1 sr)) f.
Proof. unfold alter_series. simpl. by rewrite update_at_compose. Qed.

Lemma alter_series_ext s g1 g2 f :
  (forall sr, g1 sr = g2 sr) -> alter_series s g1 f = alter_series s g2 f.
Proof. intros Hext. unfold alter_series. by rewrite (update_at_ext g1 g2). Qed.

Lemma update_at_id {A : Type} (i : Z) (l : list A) :
  update_at i (fun x => x) l = l.
Proof. unfold update_at. destruct (i <? 0); [done|]. by apply list_alter_id. Qed.

(** A loop of updates of the formula [k] is one update of the formula [k]. *)
Lemma for_loop_alter_formula_at k (G : Z -> vsop_formula_t -> vsop_formula_t)
    n m :
  for_loop n (fun j m => alter_formula k (G j) m) m
  = alter_formula k (fun f => for_loop n G f) m.
Proof.
  destruct (Z.le_gt_cases 0 n) as [Hn|Hn].
  - pattern n. apply natlike_ind; [| |done].
    + rewrite for_loop_nonpos by done.
      rewrite (alter_formula_ext k _ (fun f => f))
        by (intros; by rewrite for_loop_nonpos).
      unfold alter_formula. rewrite update_at_id. by destruct m.
    + intros j Hj IH. rewrite <- Z.add_1_r, for_loop_succ by done.
      rewrite IH, alter_formula_compose. apply alter_formula_ext.
      intros f. by rewrite for_loop_succ.
  - rewrite for_loop_nonpos by lia.
    rewrite (alter_formula_ext k _ (fun f => f))
      by (intros; by rewrite for_loop_nonpos by lia).
    unfold alter_formula. rewrite update_at_id. by destruct m.
Qed.

Lemma for_loop_alter_series_at s (G : Z -> vsop_series_t -> vsop_series_t)
    n f :
  for_loop n (fun j f => alter_series s (G j) f) f
  = alter_series s (fun sr => for_loop n G sr) f.
Proof.
  destruct (Z.le_gt_cases 0 n) as [Hn|Hn].
  - pattern n. apply natlike_ind; [| |done].
    + rewrite for_loop_nonpos by done.
      rewrite (alter_series_ext s _ (fun sr => sr))
        by (intros; by rewrite for_loop_nonpos).
      unfold alter_series. rewrite update_at_id. by destruct f.
    + intros j Hj IH. rewrite <- Z.add_1_r, for_loop_succ by done.
      rewrite IH, alter_series_compose. apply alter_series_ext.
      intros sr. by rewrite for_loop_succ.
  - rewrite for_loop_nonpos by lia.
    rewrite (alter_series_ext s _ (fun sr => sr))
      by (intros; by rewrite for_loop_nonpos by lia).
    unfold alter_series. rewrite update_at_id. by destruct f.
Qed.

(** The loop that stores the terms of a series. *)
Lemma for_loop_set_term (t : Z -> vsop_term_t) n a b (l : list vsop_term_t) :
  for_loop n (fun i sr => set_term i (t i) sr)
    {| nterms_total := a; nterms_calc := b; term := Some l |}
  = {| nterms_total := a; nterms_calc := b;
       term := Some (for_loop n (fun i l => <[Z.to_nat i := t i]> l) l) |}.
Proof.
  destruct (Z.le_gt_cases 0 n) as [Hn|Hn];
    [|by rewrite !for_loop_nonpos by lia].
  pattern n. apply natlike_ind; [| |done].
  - by rewrite !for_loop_nonpos.
  - intros j Hj IH. rewrite <- Z.add_1_r, !for_loop_succ by done.
    by rewrite IH.
Qed.

(** *** The reader on the lines of the writer *)

Lemma read_term_consumes k s i (tm : vsop_term_t) :
  sscanf
    (sprintf ("        %7d %18.11lf %14.11lf %20.11lf" ++ newline)
       [VInt i; VDouble (amplitude tm); VDouble (phase tm);
        VDouble (frequency tm)])
    " %d %lf %lf %lf"
  = [VInt i; VDouble (reread (amplitude tm)); VDouble (reread (phase tm));
     VDouble (reread (frequency tm))] ->
  consumes (read_term k s i)
    [sprintf ("        %7d %18.11lf %14.11lf %20.11lf" ++ newline)
       [VInt i; VDouble (amplitude tm); VDouble (phase tm);
        VDouble (frequency tm)]]
    (alter_formula k (alter_series s (set_term i (reread_term reread tm)))).
Proof.
  intros Hscan. unfold read_term.
  apply (consumes_parse _ _ _ (reread_term reread tm)).
  - rewrite Hscan. by rewrite Z.eqb_refl.
  - apply consumes_update.
Qed.

(** The updates of [read_series] amount to storing the series read. *)
Lemma series_updates k s sr m :
  0 <= nterms_calc sr ->
  for_loop (nterms_calc sr)
    (fun i =>
       alter_formula k
         (alter_series s (set_term i (reread_term reread (term_at sr i)))))
    (alter_formula k
       (alter_series s
          (fun sr0 => {| nterms_total := nterms_total sr0;
                         nterms_calc := nterms_calc sr0;
                         term := Some (replicate (Z.to_nat (nterms_calc sr))
                                         zero_term) |}))
       (alter_formula k
          (alter_series s
             (fun sr0 => {| nterms_total := nterms_calc sr;
                            nterms_calc := nterms_calc sr;
                            term := term sr0 |}))
          m))
  = alter_formula k (alter_series s (fun _ => reread_series reread sr)) m.
Proof.
  intros Hn.
  rewrite (for_loop_alter_formula_at k
             (fun i => alter_series s
                         (set_term i (reread_term reread (term_at sr i))))).
  rewrite !alter_formula_compose. apply alter_formula_ext. intros f.
  rewrite (for_loop_alter_series_at s
             (fun i => set_term i (reread_term reread (term_at sr i)))).
  rewrite !alter_series_compose. apply alter_series_ext. intros sr0.
  rewrite for_loop_set_term. unfold reread_series. f_equal. f_equal.
  by apply for_loop_insert_all.
Qed.

Lemma read_series_consumes k s sr :
  0 <= nterms_calc sr ->
  sscanf
    (sprintf ("        series=%d, nterms=%d" ++ newline)
       [VInt s; VInt (nterms_calc sr)])
    " series=%d, nterms=%d"
  = [VInt s; VInt (nterms_calc sr)] ->
  (forall allocs, calloc_ok allocs (nterms_calc sr) = true) ->
  (forall i, 0 <= i < nterms_calc sr ->
     sscanf
       (sprintf ("        %7d %18.11lf %14.11lf %20.11lf" ++ newline)
          [VInt i; VDouble (amplitude (term_at sr i));
           VDouble (phase (term_at sr i)); VDouble (frequency (term_at sr i))])
       " %d %lf %lf %lf"
     = [VInt i; VDouble (reread (amplitude (term_at sr i)));
        VDouble (reread (phase (term_at sr i)));
        VDouble (reread (frequency (term_at sr i)))]) ->
  consumes (read_series k s) (write_series s sr)
    (alter_formula k (alter_series s (fun _ => reread_series reread sr))).
Proof.
  intros Hn Hscan Hcalloc Hterms.
  eapply consumes_ext; [intros m; by apply series_updates|].
  unfold read_series, write_series.
  apply (consumes_parse _ _ _ (nterms_calc sr)).
  { rewrite Hscan. by rewrite Z.eqb_refl. }
  apply (consumes_bind _ _ [] _ _
           (fun m =>
              for_loop (nterms_calc sr)
                (fun i =>
                   alter_formula k
                     (alter_series s
                        (set_term i (reread_term reread (term_at sr i)))))
                (alter_formula k
                   (alter_series s
                      (fun sr0 =>
                         {| nterms_total := nterms_total sr0;
                            nterms_calc := nterms_calc sr0;
                            term := Some (replicate
                                            (Z.to_nat (nterms_calc sr))
                                            zero_term) |}))
                   m))).
  { apply consumes_update. }
  apply (consumes_bind _ _ [] _ _
           (for_loop (nterms_calc sr)
              (fun i =>
                 alter_formula k
                   (alter_series s
                      (set_term i (reread_term reread (term_at sr i))))))).
  { by apply consumes_calloc. }
  apply (consumes_for _ _
           (fun i =>
              [sprintf ("        %7d %18.11lf %14.11lf %20.11lf" ++ newline)
                 [VInt i; VDouble (amplitude (term_at sr i));
                  VDouble (phase (term_at sr i));
                  VDouble (frequency (term_at sr i))]])).
  intros i Hi. apply read_term_consumes. by apply Hterms.
Qed.

Lemma for_loop_alter_series_each (h : Z -> vsop_series_t -> vsop_series_t)
    n f :
  for_loop n (fun s f => alter_series s (h s) f) f
  = {| nseries_total := nseries_total f; nseries_calc := nseries_calc f;
       series := imap (fun i x => if Z.of_nat i <? n then h (Z.of_nat i) x
                                  else x) (series f) |}.
Proof.
  rewrite <- for_loop_update_each.
  destruct (Z.le_gt_cases 0 n) as [Hn|Hn];
    [|rewrite !for_loop_nonpos by lia; by destruct f].
  pattern n. apply natlike_ind; [| |done].
  - rewrite !for_loop_nonpos by done. by destruct f.
  - intros j Hj IH. rewrite <- Z.add_1_r, !for_loop_succ by done.
    by rewrite IH.
Qed.

Lemma for_loop_alter_formula_each (h : Z -> vsop_formula_t -> vsop_formula_t)
    n m :
  for_loop n (fun k m => alter_formula k (h k) m) m
  = {| version := version m; body := body m; ncoords := ncoords m;
       formula := imap (fun i x => if Z.of_nat i <? n then h (Z.of_nat i) x
                                   else x) (formula m) |}.
Proof.
  rewrite <- for_loop_update_each.
  destruct (Z.le_gt_cases 0 n) as [Hn|Hn];
    [|rewrite !for_loop_nonpos by lia; by destruct m].
  pattern n. apply natlike_ind; [| |done].
  - rewrite !for_loop_nonpos by done. by destruct m.
  - intros j Hj IH. rewrite <- Z.add_1_r, !for_loop_succ by done.
    by rewrite IH.
Qed.

Lemma formula_updates k f m :
  for_loop (nseries_calc f)
    (fun s =>
       alter_formula k
         (alter_series s (fun _ => reread_series reread (series_at f s))))
    (alter_formula k
       (fun f0 => {| nseries_total := nseries_calc f;
                     nseries_calc := nseries_calc f; series := series f0 |})
       m)
  = alter_formula k (stored_formula reread f) m.
Proof.
  rewrite (for_loop_alter_formula_at k
             (fun s => alter_series s
                         (fun _ => reread_series reread (series_at f s)))).
  rewrite alter_formula_compose. apply alter_formula_ext. intros f0.
  by rewrite (for_loop_alter_series_each
                (fun s _ => reread_series reread (series_at f s))).
Qed.

Lemma read_formula_consumes k f :
  0 <= nseries_calc f < VSOP_MAX_SERIES ->
  sscanf
    (sprintf ("    coord=%d, nseries=%d" ++ newline)
       [VInt k; VInt (nseries_calc f)])
    " coord=%d, nseries=%d"
  = [VInt k; VInt (nseries_calc f)] ->
  (forall s, 0 <= s < nseries_calc f ->
     consumes (read_series k s) (write_series s (series_at f s))
       (alter_formula k
          (alter_series s (fun _ => reread_series reread (series_at f s))))) ->
  consumes (read_formula k) (write_formula k f)
    (alter_formula k (stored_formula reread f)).
Proof.
  intros Hns Hscan Hseries.
  eapply consumes_ext; [intros m; apply formula_updates|].
  unfold read_formula, write_formula.
  apply (consumes_parse _ _ _ (nseries_calc f)).
  { rewrite Hscan, Z.eqb_refl. simpl.
    replace (0 <=? nseries_calc f) with true by (symmetry; apply Z.leb_le; lia).
    by replace (nseries_calc f <? VSOP_MAX_SERIES) with true
      by (symmetry; apply Z.ltb_lt; lia). }
  apply (consumes_bind _ _ [] _ _
           (for_loop (nseries_calc f)
              (fun s =>
                 alter_formula k
                   (alter_series s
                      (fun _ => reread_series reread (series_at f s)))))).
  { apply consumes_update. }
  by apply (consumes_for _ _ (fun s => write_series s (series_at f s))).
Qed.

(** The model [VsopReadTrunc] builds from the null model. *)
Lemma model_updates m :
  for_loop (ncoords m)
    (fun k => alter_formula k (stored_formula reread (formula_at m k)))
    {| version := version m; body := body m; ncoords := ncoords m;
       formula := formula VsopInit |}
  = reread_model reread m.
Proof.
  rewrite (for_loop_alter_formula_each
             (fun k => stored_formula reread (formula_at m k))).
  unfold reread_model. simpl. f_equal. apply list_eq. intros i.
  rewrite !list_lookup_imap.
  destruct (replicate (Z.to_nat VSOP_MAX_COORDS) zero_formula !! i)
    as [f0|] eqn:Hf0; [simpl|done].
  apply lookup_replicate in Hf0 as [-> _].
  by destruct (Z.of_nat i <? ncoords m).
Qed.

(** Every line of a model that reads back fits the buffer of [fgets]. *)
Lemma write_model_lines_ok m :
  read_back reread m -> Forall (fun l => line_ok l = true) (write_model m).
Proof.
  intros (Hhok & _ & Hlines). unfold write_model.
  apply Forall_cons. split; [done|].
  rewrite for_loop_concat. apply Forall_concat, Forall_fmap, Forall_seqZ.
  intros k Hk. destruct (Hlines k) as (Hcok & _ & Hser); [lia|].
  unfold compose, write_formula. apply Forall_cons. split; [done|].
  rewrite for_loop_concat. apply Forall_concat, Forall_fmap, Forall_seqZ.
  intros s Hs. destruct (Hser s) as (Hsok & _ & _ & Hterms); [lia|].
  unfold compose, write_series. apply Forall_cons. split; [done|].
  rewrite for_loop_concat. apply Forall_concat, Forall_fmap, Forall_seqZ.
  intros i Hi. destruct (Hterms i) as (Htok & _); [lia|].
  unfold compose. apply Forall_cons. split; [done|]. apply Forall_nil_2.
Qed.

(** Writing a model whose counts the reader accepts and reading the file
    back gives [reread_model]: the same version, body and [ncoords], the
    active series and terms with their counts, and every coefficient as
    [reread] returns it. *)
Theorem write_then_read (m : vsop_model_t) :
  read_back reread m ->
  VSOP_MIN_COORDS <= ncoords m <= VSOP_MAX_COORDS ->
  (forall k, 0 <= k < ncoords m ->
     0 <= nseries_calc (formula_at m k) < VSOP_MAX_SERIES) ->
  (forall k s, 0 <= k < ncoords m -> 0 <= s < nseries_calc (formula_at m k) ->
     0 <= nterms_calc (series_at (formula_at m k) s)) ->
  VsopWriteTrunc m true = (0, write_model m)
  /\ VsopReadTrunc (Some (reopen (write_model m)))
     = (0, reread_model reread m).
Proof.
  intros Hback Hnc Hns Hnt. split; [done|].
  rewrite reopen_lines by (by apply write_model_lines_ok).
  destruct Hback as (_ & Hheader & Hlines).
  assert (Hbody : consumes read_body (write_model m)
            (fun m0 =>
               for_loop (ncoords m)
                 (fun k =>
                    alter_formula k (stored_formula reread (formula_at m k)))
                 {| version := version m; body := body m; ncoords := ncoords m;
                    formula := formula m0 |})).
  { unfold read_body, write_model.
    apply (consumes_parse _ _ _ (version m, body m, ncoords m)).
    { rewrite Hheader.
      replace (VSOP_MIN_COORDS <=? ncoords m) with true
        by (symmetry; apply Z.leb_le; lia).
      by replace (ncoords m <=? VSOP_MAX_COORDS) with true
        by (symmetry; apply Z.leb_le; lia). }
    apply (consumes_bind _ _ [] _ _
             (for_loop (ncoords m)
                (fun k =>
                   alter_formula k
                     (stored_formula reread (formula_at m k))))).
    { apply consumes_update. }
    apply (consumes_for _ _ (fun k => write_formula k (formula_at m k))).
    intros k Hk. destruct (Hlines k Hk) as (_ & Hcoord & Hser).
    apply read_formula_consumes; [by apply Hns|done|].
    intros s Hs. destruct (Hser s Hs) as (_ & Hsline & Hcalloc & Hterms).
    apply read_series_consumes; [by apply Hnt|done..|].
    intros i Hi. by destruct (Hterms i Hi) as (_ & Hterm). }
  unfold VsopReadTrunc. simpl.
  destruct (Hbody [] 0 VsopInit 0%nat) as (lnum' & allocs' & Hrun).
  rewrite app_nil_r in Hrun. rewrite Hrun. simpl.
  by rewrite model_updates.
Qed.

End RoundTrip.

(** ** The theorems at sample inputs *)

#[local] Existing Instance sample_header.

Section RationalOrder.

(** The exact rationals have the two laws of [ordered]. *)
Lemma rational_ordered : @ordered rational.
Proof.
  split.
  - intros a b x Hab Hxb. simpl in *.
    apply negb_true_iff, not_true_iff_false. intros Hxa.
    apply negb_true_iff, not_true_iff_false in Hxb. apply Hxb.
    apply Qle_bool_iff in Hab, Hxa. apply Qle_bool_iff.
    by eapply Qle_trans.
  - intros c a b Hc Hab. simpl in *. apply Qle_bool_iff in Hab.
    apply Qle_bool_iff. apply Qmult_le_l; [|done].
    unfold scaling_factors in Hc. simpl in Hc.
    repeat (apply elem_of_cons in Hc as [->|Hc]; [done|]).
    by apply elem_of_nil in Hc.
Qed.

End RationalOrder.

(** [0 * 0.0 * 0.0] is [0.0] in [binary64], and the derivative evaluator
    computes the series of the specification on the sample model. *)
Lemma VsopDeriv_computes_derivative_sample :
  (@d_of_int binary64 0 * d_lit 0 * d_lit 0)%D = d_lit 0
  /\ VsopDeriv (D := binary64) cos_poly sin_poly mercury64 (b64_lit 0.5)
       [d_zero; d_zero; d_zero]
     = for_loop 3
         (fun k a =>
            <[Z.to_nat k :=
                coordinate_derivative (D := binary64) cos_poly sin_poly
                  mercury64 k (b64_lit 0.5)]> a)
         [d_zero; d_zero; d_zero].
Proof.
  split; [reflexivity|].
  apply (VsopDeriv_computes_derivative (D := binary64) cos_poly sin_poly
           mercury64 (b64_lit 0.5) [d_zero; d_zero; d_zero]).
  reflexivity.
Defined.

(** The threshold [1.0] on the sample model: the run succeeds, terms are
    removed from coordinate [0], and their sum is within the budget. *)
Lemma VsopTruncate_within_budget_sample :
  VsopTruncate mercury64 (b64_lit 0) (b64_lit 365250) (b64_lit 1)
  = (0, snd (VsopTruncate mercury64 (b64_lit 0) (b64_lit 365250) (b64_lit 1)))
  /\ coordinate_removals mercury64 (b64_lit 0) (b64_lit 365250) (b64_lit 1) 0
     = [(1, 1); (0, 2)]
  /\ d_gt (coordinate_removed_sum
             mercury64 (b64_lit 0) (b64_lit 365250) (b64_lit 1) 0)
          (budget mercury64 0 (b64_lit 1))
     = false.
Proof.
  split; [vm_compute; reflexivity|]. split; [vm_compute; reflexivity|].
  apply (VsopTruncate_within_budget mercury64
           (snd (VsopTruncate mercury64 (b64_lit 0) (b64_lit 365250) (b64_lit 1)))
           (b64_lit 0) (b64_lit 365250) (b64_lit 1) 0).
  - vm_compute. reflexivity.
  - vm_compute. split; [discriminate|reflexivity].
  - vm_compute. lia.
  - vm_compute. discriminate.
Defined.

(** With the threshold [-1.0] the run succeeds and removes nothing from
    coordinate [0]: the sum of the removed increments is [0.0], and [0.0]
    exceeds the budget [0.387098 * -1.0]. *)
Lemma VsopTruncate_negative_threshold :
  fst (VsopTruncate mercury64 (b64_lit 0) (b64_lit 365250) (b64_lit (-1))) = 0
  /\ coordinate_removals mercury64 (b64_lit 0) (b64_lit 365250) (b64_lit (-1)) 0
     = []
  /\ d_gt (coordinate_removed_sum
             mercury64 (b64_lit 0) (b64_lit 365250) (b64_lit (-1)) 0)
          (budget mercury64 0 (b64_lit (-1)))
     = true.
Proof. vm_compute. repeat split; reflexivity. Qed.

(** Two thresholds on the sample model, in exact arithmetic. *)
Lemma VsopTruncate_monotone_sample :
  @ordered rational
  /\ @d_le rational (1 # 2)%Q 1%Q = true
  /\ formula_term_count
       (formula_at (snd (VsopTruncate mercuryQ 0%Q 365250%Q 1%Q)) 0)
     <= formula_term_count
          (formula_at (snd (VsopTruncate mercuryQ 0%Q 365250%Q (1 # 2)%Q)) 0).
Proof.
  split; [exact rational_ordered|]. split; [reflexivity|].
  apply (VsopTruncate_monotone
           mercuryQ 0%Q 365250%Q (1 # 2)%Q 1%Q 0 rational_ordered).
  reflexivity.
Defined.

(** The latitude of the gapped sample has an empty series below its last
    active series, which is not empty: [VsopTrim] leaves it unchanged. *)
Lemma VsopTrim_removes_trailing_empty_sample :
  nterms_calc (series_at (formula_at gapped64 1) 0) = 0
  /\ formula_at (VsopTrim gapped64) 1 = formula_at gapped64 1.
Proof.
  split; [reflexivity|].
  apply (VsopTrim_removes_trailing_empty gapped64 1).
  - vm_compute. split; [discriminate|reflexivity].
  - vm_compute. lia.
  - vm_compute. discriminate.
  - intros s. unfold series_at, at_index.
    destruct (s <? 0); [done|].
    destruct (Z.to_nat s) as [|[|[|[|[|[|n]]]]]]; vm_compute; discriminate.
  - vm_compute. reflexivity.
  - vm_compute. reflexivity.
Defined.

(** The longitude of the gapped sample has the empty series of the power 0
    followed by the active, non-empty series of the power 1, and [VsopTrim]
    changes it: the empty series of the power 2 is dropped. *)
Lemma VsopTrim_changes_gapped_formula :
  nterms_calc (series_at (formula_at gapped64 0) 0) = 0
  /\ 0 < nterms_calc (series_at (formula_at gapped64 0) 1)
  /\ 1 < nseries_calc (formula_at gapped64 0)
  /\ formula_at (VsopTrim gapped64) 0 <> formula_at gapped64 0.
Proof.
  split; [reflexivity|]. split; [reflexivity|]. split; [reflexivity|].
  intros Heq. apply (f_equal nseries_calc) in Heq. vm_compute in Heq.
  discriminate.
Qed.

(** The Sun of the sample header has no entry in the distance table, and
    truncating the spherical model of the Sun fails. *)
Lemma VsopTruncate_fails_for_Sun_sample :
  (VSOP_SUN ∉ scaled_bodies)
  /\ fst (VsopTruncate sun64 (b64_lit 0) (b64_lit 365250) (b64_lit 1)) = 1.
Proof.
  assert (Hsun : VSOP_SUN ∉ scaled_bodies).
  { unfold scaled_bodies. simpl.
    repeat (apply not_elem_of_cons; split; [discriminate|]).
    apply not_elem_of_nil. }
  split; [exact Hsun|].
  apply (VsopTruncate_fails_for_Sun
           sun64 (b64_lit 0) (b64_lit 365250) (b64_lit 1) eq_refl Hsun).
  - left. reflexivity.
  - vm_compute. reflexivity.
Defined.

(** The sample file loads; the model has the six series of the longitude;
    [VsopWriteTrunc] writes it and [VsopReadTrunc] rejects what was
    written. *)
Lemma VsopReadTrunc_rejects_full_formula_sample :
  VsopLoadModel (libc := stdio64) (Some earth_file) = (0, earth64)
  /\ nseries_calc (formula_at earth64 0) = VSOP_MAX_SERIES
  /\ VsopReadTrunc (libc := stdio64)
       (Some (reopen (write_model (libc := stdio64) earth64)))
     = (1, VsopInit).
Proof.
  split; [vm_compute; reflexivity|]. split; [vm_compute; reflexivity|].
  apply (VsopReadTrunc_rejects_full_formula (libc := stdio64) earth64).
  - vm_compute. split; discriminate.
  - vm_compute. reflexivity.
  - vm_compute. reflexivity.
  - vm_compute. reflexivity.
  - vm_compute. reflexivity.
  - vm_compute. reflexivity.
  - vm_compute. reflexivity.
Defined.

(** The sample model of Mercury is written and read back by [stdio64]. *)
Lemma write_then_read_sample :
  read_back (D := binary64) (libc := stdio64) reread64 mercury64
  /\ VsopReadTrunc (libc := stdio64)
       (Some (reopen (write_model (libc := stdio64) mercury64)))
     = (0, reread_model (D := binary64) reread64 mercury64).
Proof.
  assert (Hback : read_back (D := binary64) (libc := stdio64) reread64 mercury64).
  { split; [vm_compute; reflexivity|]. split; [vm_compute; reflexivity|].
    intros k Hk. change (ncoords mercury64) with 3 in Hk.
    assert (Hk' : k = 0 \/ k = 1 \/ k = 2) by lia.
    destruct Hk' as [->|[->| ->]].
    - split; [vm_compute; reflexivity|]. split; [vm_compute; reflexivity|].
      intros s Hs.
      change (nseries_calc (formula_at mercury64 0)) with 2 in Hs.
      assert (Hs' : s = 0 \/ s = 1) by lia. destruct Hs' as [->| ->].
      + split; [vm_compute; reflexivity|]. split; [vm_compute; reflexivity|].
        split; [intros allocs; vm_compute; reflexivity|]. intros i Hi.
        change (nterms_calc (series_at (formula_at mercury64 0) 0)) with 3 in Hi.
        assert (Hi' : i = 0 \/ i = 1 \/ i = 2) by lia.
        destruct Hi' as [->|[->| ->]]; vm_compute; split; reflexivity.
      + split; [vm_compute; reflexivity|]. split; [vm_compute; reflexivity|].
        split; [intros allocs; vm_compute; reflexivity|]. intros i Hi.
        change (nterms_calc (series_at (formula_at mercury64 0) 1)) with 2 in Hi.
        assert (Hi' : i = 0 \/ i = 1) by lia.
        destruct Hi' as [->| ->]; vm_compute; split; reflexivity.
    - split; [vm_compute; reflexivity|]. split; [vm_compute; reflexivity|].
      intros s Hs.
      change (nseries_calc (formula_at mercury64 1)) with 1 in Hs.
      assert (s = 0) as -> by lia.
      split; [vm_compute; reflexivity|]. split; [vm_compute; reflexivity|].
      split; [intros allocs; vm_compute; reflexivity|]. intros i Hi.
      change (nterms_calc (series_at (formula_at mercury64 1) 0)) with 1 in Hi.
      assert (i = 0) as -> by lia. vm_compute. split; reflexivity.
    - split; [vm_compute; reflexivity|]. split; [vm_compute; reflexivity|].
      intros s Hs.
      change (nseries_calc (formula_at mercury64 2)) with 1 in Hs.
      assert (s = 0) as -> by lia.
      split; [vm_compute; reflexivity|]. split; [vm_compute; reflexivity|].
      split; [intros allocs; vm_compute; reflexivity|]. intros i Hi.
      change (nterms_calc (series_at (formula_at mercury64 2) 0)) with 2 in Hi.
      assert (Hi' : i = 0 \/ i = 1) by lia.
      destruct Hi' as [->| ->]; vm_compute; split; reflexivity. }
  split; [exact Hback|].
  apply (write_then_read (D := binary64) (libc := stdio64) reread64 mercury64
           Hback).
  - vm_compute. split; discriminate.
  - intros k Hk. change (ncoords mercury64) with 3 in Hk.
    assert (Hk' : k = 0 \/ k = 1 \/ k = 2) by lia.
    destruct Hk' as [->|[->| ->]]; vm_compute; split; (discriminate || reflexivity).
  - intros k s Hk Hs. change (ncoords mercury64) with 3 in Hk.
    assert (Hk' : k = 0 \/ k = 1 \/ k = 2) by lia.
    destruct Hk' as [->|[->| ->]].
    + change (nseries_calc (formula_at mercury64 0)) with 2 in Hs.
      assert (Hs' : s = 0 \/ s = 1) by lia.
      destruct Hs' as [->| ->]; vm_compute; discriminate.
    + change (nseries_calc (formula_at mercury64 1)) with 1 in Hs.
      assert (s = 0) as -> by lia. vm_compute. discriminate.
    + change (nseries_calc (formula_at mercury64 2)) with 1 in Hs.
      assert (s = 0) as -> by lia. vm_compute. discriminate.
Defined.
